(** * Isolation on a 3x2 board: game state and depth-limited minimax

    A shallow embedding of [gamestate.py].  The Python program keeps a
    [GameState] instance whose [_board] attribute is a list of column
    lists and whose [_player_locations] attribute is a two-slot list;
    [forecast_move] deep-copies the instance and then writes into the
    copy.  Since the claims speak about what is and is not mutated, the
    embedding keeps an explicit object store: list objects and
    instances live at locations, attributes hold references, and every
    method is a computation over the store that may raise. *)

From Stdlib Require Import ZArith Lia Bool String.
From stdpp Require Import base list.

Local Open Scope Z_scope.

(** ** Module constants *)

Definition xlim : Z := 3.
Definition ylim : Z := 2.

(** ** Values and objects *)

Abbreviation loc := nat (only parsing).

(** A move, like a player position, is a tuple [(x, y)] of ints, in
    (column, row) order. *)
Abbreviation coord := (Z * Z)%type (only parsing).

(** The objects the program allocates.  Tuples, ints and [None] are
    immutable and are kept as plain values inside the objects. *)
Inductive obj : Type :=
| IntList (cells : list Z)                   (* one column, [[0] * ylim] *)
| RefList (columns : list loc)               (* the list of columns      *)
| PosList (slots : list (option coord))       (* [_player_locations]      *)
| Instance (_board : loc) (active_player : Z) (_player_locations : loc).

Abbreviation heap := (list obj) (only parsing).

(** Search values: Python ints, and the two float infinities used to
    start the folds. *)
Inductive num : Type :=
| NegInf
| Int (z : Z)
| PosInf.

(** [a < b] on ints and infinities. *)
Definition num_ltb (a b : num) : bool :=
  match a, b with
  | NegInf, NegInf => false
  | NegInf, _ => true
  | Int _, NegInf => false
  | Int x, Int y => x <? y
  | Int _, PosInf => true
  | PosInf, _ => false
  end.

(** Python's two-argument [min] returns its first argument unless the
    second is strictly smaller; [max] unless the second is strictly
    larger. *)
Definition py_min (a b : num) : num := if num_ltb b a then b else a.
Definition py_max (a b : num) : num := if num_ltb a b then b else a.

(** ** Computations over the store *)

Inductive exn : Type :=
| RuntimeError (msg : string)
| IndexError
| TypeError.

Inductive outcome (A : Type) : Type :=
| Ok (a : A)
| Raise (e : exn)
| OutOfFuel.
Arguments Ok {A} a.
Arguments Raise {A} e.
Arguments OutOfFuel {A}.

Definition M (A : Type) : Type := heap -> heap * outcome A.

Definition ret {A} (a : A) : M A := fun h => (h, Ok a).
Definition raise {A} (e : exn) : M A := fun h => (h, Raise e).
Definition out_of_fuel {A} : M A := fun h => (h, OutOfFuel).

Definition bind {A B} (m : M A) (k : A -> M B) : M B :=
  fun h =>
    match m h with
    | (h', Ok a) => k a h'
    | (h', Raise e) => (h', Raise e)
    | (h', OutOfFuel) => (h', OutOfFuel)
    end.

Notation "'let*' x ':=' m 'in' k" := (bind m (fun x => k))
  (at level 10, x pattern, m at level 100, k at level 200,
   format "'[v' 'let*'  x  ':='  m  'in' '/' k ']'").
Notation "m ';;' k" := (bind m (fun _ => k))
  (at level 100, k at level 200, right associativity).

(** A [for] loop without [break], threading the loop-carried variable. *)
Fixpoint foreach {A S} (l : list A) (body : A -> S -> M S) (s : S) : M S :=
  match l with
  | [] => ret s
  | a :: l' => let* s' := body a s in foreach l' body s'
  end.

(** [range(n)] *)
Definition range (n : Z) : list Z := map Z.of_nat (seq 0 (Z.to_nat n)).

(** *** Store primitives *)

Definition alloc (o : obj) : M loc := fun h => (h ++ [o], Ok (length h)).

(** A location that holds no object cannot arise in Python; the model
    reports it, like an object of the wrong kind, as [TypeError]. *)
Definition load (l : loc) : M obj :=
  fun h => match h !! l with
           | Some o => (h, Ok o)
           | None => (h, Raise TypeError)
           end.

Definition store (l : loc) (o : obj) : M unit :=
  fun h => match h !! l with
           | Some _ => (<[l:=o]> h, Ok tt)
           | None => (h, Raise TypeError)
           end.

Definition load_ints (l : loc) : M (list Z) :=
  let* o := load l in
  match o with IntList xs => ret xs | _ => raise TypeError end.

Definition load_refs (l : loc) : M (list loc) :=
  let* o := load l in
  match o with RefList rs => ret rs | _ => raise TypeError end.

Definition load_slots (l : loc) : M (list (option coord)) :=
  let* o := load l in
  match o with PosList ps => ret ps | _ => raise TypeError end.

Definition load_instance (l : loc) : M (loc * Z * loc) :=
  let* o := load l in
  match o with Instance b ap p => ret (b, ap, p) | _ => raise TypeError end.

(** Attribute reads [self._board], [self.active_player],
    [self._player_locations]. *)
Definition attr_board (self : loc) : M loc :=
  let* (b, _, _) := load_instance self in ret b.
Definition attr_active_player (self : loc) : M Z :=
  let* (_, ap, _) := load_instance self in ret ap.
Definition attr_player_locations (self : loc) : M loc :=
  let* (_, _, p) := load_instance self in ret p.

(** *** List indexing *)

(** Python normalises an index [i] into a list of length [n]: a
    negative index counts from the end, anything outside
    [-n <= i < n] is an [IndexError]. *)
Definition py_index (n : nat) (i : Z) : option nat :=
  if (0 <=? i) && (i <? Z.of_nat n) then Some (Z.to_nat i)
  else if (- Z.of_nat n <=? i) && (i <? 0) then Some (Z.to_nat (Z.of_nat n + i))
  else None.

Definition getitem {A} (l : list A) (i : Z) : M A :=
  match py_index (length l) i with
  | Some k => match l !! k with
              | Some a => ret a
              | None => raise IndexError
              end
  | None => raise IndexError
  end.

Definition setitem {A} (l : list A) (i : Z) (a : A) : M (list A) :=
  match py_index (length l) i with
  | Some k => ret (<[k:=a]> l)
  | None => raise IndexError
  end.

(** [b[x][y]] and [b[x][y] = v] on a list of columns [b]. *)
Definition getitem2 (b : loc) (x y : Z) : M Z :=
  let* columns := load_refs b in
  let* c := getitem columns x in
  let* cells := load_ints c in
  getitem cells y.

Definition setitem2 (b : loc) (x y v : Z) : M unit :=
  let* columns := load_refs b in
  let* c := getitem columns x in
  let* cells := load_ints c in
  let* cells' := setitem cells y v in
  store c (IntList cells').

(** [self._board[x][y]] *)
Definition board_cell (self : loc) (x y : Z) : M Z :=
  let* b := attr_board self in
  getitem2 b x y.

(** [g._board[x][y] = v] *)
Definition set_board_cell (g : loc) (x y v : Z) : M unit :=
  let* b := attr_board g in
  setitem2 b x y v.

(** ** GameState *)

(** [[0] * ylim] *)
Definition zeros (n : Z) : list Z := repeat 0 (Z.to_nat n).

(** [GameState()]: the statements of [__init__] in their order.  The
    list comprehension builds a fresh column object per iteration; the
    lower-right corner is blocked through negative indices; the
    instance is allocated once the values of its three attributes are
    there, and its location is what the constructor call returns. *)
Definition __init__ : M loc :=
  let* columns :=
    foreach (range xlim)
            (fun _ acc => let* c := alloc (IntList (zeros ylim)) in ret (acc ++ [c]))
            [] in
  let* _board := alloc (RefList columns) in
  setitem2 _board (-1) (-1) 1;;
  let active_player := 0 in
  let* _player_locations := alloc (PosList [None; None]) in
  alloc (Instance _board active_player _player_locations).

(** [_get_blank_spaces]: the comprehension
    [[(x, y) for y in range(ylim) for x in range(xlim)
      if self._board[x][y] == 0]]. *)
Definition _get_blank_spaces (self : loc) : M (list coord) :=
  foreach (range ylim)
    (fun y acc =>
       foreach (range xlim)
         (fun x acc =>
            let* c := board_cell self x y in
            if c =? 0 then ret (acc ++ [(x, y)]) else ret acc)
         acc)
    [].

Definition rays : list (Z * Z) :=
  [(1, 0); (1, -1); (0, -1); (-1, -1); (-1, 0); (-1, 1); (0, 1); (1, 1)].

(** The [while] loop that walks one ray.  [x] and [y] are the loop
    variables; a truthy cell breaks out of the loop. *)
Fixpoint ray_while (fuel : nat) (self : loc) (dx dy x y : Z)
         (moves : list coord) : M (list coord) :=
  match fuel with
  | O => out_of_fuel
  | S fuel' =>
      if (0 <=? x + dx) && (x + dx <? xlim) && ((0 <=? y + dy) && (y + dy <? ylim))
      then
        let x := x + dx in
        let y := y + dy in
        let* c := board_cell self x y in
        if negb (c =? 0) then ret moves
        else ray_while fuel' self dx dy x y (moves ++ [(x, y)])
      else ret moves
  end.

(** Iterations granted to one ray walk: a walk visits at most
    [max xlim ylim] cells and then tests its guard once more. *)
Definition ray_fuel : nat := S (Z.to_nat (Z.max xlim ylim)).

Definition get_legal_moves (self : loc) : M (list coord) :=
  let* p := attr_player_locations self in
  let* slots := load_slots p in
  let* ap := attr_active_player self in
  let* current_location := getitem slots ap in
  match current_location with
  | None => _get_blank_spaces self
  | Some (x0, y0) =>
      foreach rays
        (fun '(dx, dy) moves => ray_while ray_fuel self dx dy x0 y0 moves)
        []
  end.

(** *** deepcopy *)

(** [copy.deepcopy] keeps a memo from already-copied objects to their
    copies, so that sharing inside the copied structure is preserved. *)
Definition memo_lookup (memo : list (loc * loc)) (l : loc) : option loc :=
  snd <$> find (fun kv => Nat.eqb (fst kv) l) memo.

Fixpoint deepcopy_columns (columns : list loc) (memo : list (loc * loc))
  : M (list loc) :=
  match columns with
  | [] => ret []
  | c :: rest =>
      match memo_lookup memo c with
      | Some c' =>
          let* rest' := deepcopy_columns rest memo in ret (c' :: rest')
      | None =>
          let* cells := load_ints c in
          let* c' := alloc (IntList cells) in
          let* rest' := deepcopy_columns rest ((c, c') :: memo) in
          ret (c' :: rest')
      end
  end.

Definition deepcopy (self : loc) : M loc :=
  let* (b, ap, p) := load_instance self in
  let* columns := load_refs b in
  let* columns' := deepcopy_columns columns [] in
  let* b' := alloc (RefList columns') in
  let* slots := load_slots p in
  let* p' := alloc (PosList slots) in
  alloc (Instance b' ap p').

Definition move_eqb (a b : coord) : bool :=
  (fst a =? fst b) && (snd a =? snd b).

Definition illegal_move : exn :=
  RuntimeError "Attempted forecast of illegal move".

Definition forecast_move (self : loc) (move : coord) : M loc :=
  let* legal := get_legal_moves self in
  if negb (existsb (move_eqb move) legal) then raise illegal_move
  else
    let* newBoard := deepcopy self in
    set_board_cell newBoard (fst move) (snd move) 1;;
    let* p := attr_player_locations newBoard in
    let* slots := load_slots p in
    let* ap := attr_active_player self in
    let* slots' := setitem slots ap (Some move) in
    store p (PosList slots');;
    let* (b, ap', p') := load_instance newBoard in
    store newBoard (Instance b (Z.lxor ap' 1) p');;
    ret newBoard.

(** ** Search *)

Definition terminal_test (gameState : loc) : M bool :=
  let* moves := get_legal_moves gameState in
  ret (match moves with [] => true | _ => false end).

(** [min_value] and [max_value] recurse on [depth - 1]; the structural
    argument of the model is a counter that [min_value] and [max_value]
    below start at [depth]. *)
Fixpoint min_value_rec (fuel : nat) (gameState : loc) (depth : Z) : M num :=
  let* t := terminal_test gameState in
  if t then ret (Int 1)
  else if depth <=? 0 then ret (Int 0)
  else
    match fuel with
    | O => out_of_fuel
    | S fuel' =>
        let* moves := get_legal_moves gameState in
        foreach moves
          (fun move v =>
             let* child := forecast_move gameState move in
             let* w := max_value_rec fuel' child (depth - 1) in
             ret (py_min v w))
          PosInf
    end
with max_value_rec (fuel : nat) (gameState : loc) (depth : Z) : M num :=
  let* t := terminal_test gameState in
  if t then ret (Int (-1))
  else if depth <=? 0 then ret (Int 0)
  else
    match fuel with
    | O => out_of_fuel
    | S fuel' =>
        let* moves := get_legal_moves gameState in
        foreach moves
          (fun move v =>
             let* child := forecast_move gameState move in
             let* w := min_value_rec fuel' child (depth - 1) in
             ret (py_max v w))
          NegInf
    end.

Definition min_value (gameState : loc) (depth : Z) : M num :=
  min_value_rec (Z.to_nat depth) gameState depth.

Definition max_value (gameState : loc) (depth : Z) : M num :=
  max_value_rec (Z.to_nat depth) gameState depth.

Definition minimax_decision (gameState : loc) (depth : Z) : M (option coord) :=
  let* moves := get_legal_moves gameState in
  let* (_, best_move) :=
    foreach moves
      (fun m '(best_score, best_move) =>
         let* child := forecast_move gameState m in
         let* v := min_value child (depth - 1) in
         if num_ltb best_score v then ret (v, Some m)
         else ret (best_score, best_move))
      (NegInf, None) in
  ret best_move.

(** ** Reading a state out of the store *)

(** The contents of a [GameState] instance, with the references
    followed: what an observer of the object sees. *)
Record GameState : Type := mkGameState {
  board : list (list Z);
  active : Z;
  locations : list (option coord)
}.

Fixpoint read_columns (h : heap) (columns : list loc) : option (list (list Z)) :=
  match columns with
  | [] => Some []
  | c :: rest =>
      match h !! c with
      | Some (IntList cells) =>
          match read_columns h rest with
          | Some b => Some (cells :: b)
          | None => None
          end
      | _ => None
      end
  end.

(** The column references of the instance at [self]. *)
Definition columns_of (h : heap) (self : loc) : option (list loc) :=
  match h !! self with
  | Some (Instance b _ _) =>
      match h !! b with
      | Some (RefList columns) => Some columns
      | _ => None
      end
  | _ => None
  end.

Definition read_state (h : heap) (self : loc) : option GameState :=
  match h !! self with
  | Some (Instance b ap p) =>
      match h !! b, h !! p with
      | Some (RefList columns), Some (PosList slots) =>
          match read_columns h columns with
          | Some cells => Some (mkGameState cells ap slots)
          | None => None
          end
      | _, _ => None
      end
  | _ => None
  end.

(** The shape every state of the program has: [xlim] columns of [ylim]
    cells, two player slots, and player 0 or 1 to move. *)
Definition shape_ok (s : GameState) : bool :=
  (length (board s) =? Z.to_nat xlim)%nat
  && forallb (fun col => (length col =? Z.to_nat ylim)%nat) (board s)
  && (length (locations s) =? 2)%nat
  && ((active s =? 0) || (active s =? 1)).

(** A well-formed instance: it reads as a state of the right shape and
    its columns are distinct objects (no two board columns alias). *)
Definition well_formed (h : heap) (self : loc) : bool :=
  match read_state h self, columns_of h self with
  | Some s, Some columns => shape_ok s && bool_decide (NoDup columns)
  | _, _ => false
  end.

(** The content of a board at list positions [i] and [j]. *)
Definition cell_at (b : list (list Z)) (i j : nat) : option Z :=
  match b !! i with
  | Some col => col !! j
  | None => None
  end.

(** [cell b x y] is the content of the cell at column [x] and row [y],
    for coordinates that are not negative (negative indices, which
    Python would count from the end, name no cell). *)
Definition cell (b : list (list Z)) (x y : Z) : option Z :=
  if (0 <=? x) && (0 <=? y) then cell_at b (Z.to_nat x) (Z.to_nat y) else None.

Definition on_board (x y : Z) : bool :=
  (0 <=? x) && (x <? xlim) && ((0 <=? y) && (y <? ylim)).

(** An open cell holds 0; anything else is blocked. *)
Definition is_open (b : list (list Z)) (c : coord) : bool :=
  match cell b (fst c) (snd c) with
  | Some v => v =? 0
  | None => false
  end.

Definition is_blocked (b : list (list Z)) (c : coord) : bool :=
  match cell b (fst c) (snd c) with
  | Some v => negb (v =? 0)
  | None => false
  end.

(** All cells of the board, rows top to bottom and, inside a row,
    columns left to right. *)
Definition row_major : list coord :=
  flat_map (fun y => map (fun x => (x, y)) (range xlim)) (range ylim).

(** The cells a walk from [(x, y)] in direction [(dx, dy)] collects. *)
Fixpoint walk (fuel : nat) (b : list (list Z)) (dx dy x y : Z) : list coord :=
  match fuel with
  | O => []
  | S fuel' =>
      if on_board (x + dx) (y + dy) && is_open b (x + dx, y + dy)
      then (x + dx, y + dy) :: walk fuel' b dx dy (x + dx) (y + dy)
      else []
  end.

(** The value of [get_legal_moves] as a function of the state read. *)
Definition legal_moves (s : GameState) : list coord :=
  match locations s !! Z.to_nat (active s) with
  | Some None => List.filter (is_open (board s)) row_major
  | Some (Some (x0, y0)) =>
      flat_map (fun d => walk ray_fuel (board s) (fst d) (snd d) x0 y0) rays
  | None => []
  end.

(** The state [forecast_move] builds in the copy. *)
Definition apply_move (s : GameState) (mv : coord) : GameState :=
  {| board := alter (fun col => <[Z.to_nat (snd mv) := 1]> col)
                    (Z.to_nat (fst mv)) (board s);
     active := Z.lxor (active s) 1;
     locations := <[Z.to_nat (active s) := Some mv]> (locations s) |}.

(** The values of the two evaluators as functions of the state read,
    by recursion on the number of plies left. *)
Fixpoint min_val (n : nat) (s : GameState) : num :=
  match legal_moves s with
  | [] => Int 1
  | _ =>
      match n with
      | O => Int 0
      | S n' =>
          fold_left (fun v mv => py_min v (max_val n' (apply_move s mv)))
                    (legal_moves s) PosInf
      end
  end
with max_val (n : nat) (s : GameState) : num :=
  match legal_moves s with
  | [] => Int (-1)
  | _ =>
      match n with
      | O => Int 0
      | S n' =>
          fold_left (fun v mv => py_max v (min_val n' (apply_move s mv)))
                    (legal_moves s) NegInf
      end
  end.

(** ** Representation of states in the store *)

(** [Rep h self s]: the instance at [self] in store [h] reads as [s],
    through distinct column objects. *)
Definition Rep (h : heap) (self : loc) (s : GameState) : Prop :=
  exists b p columns,
    h !! self = Some (Instance b (active s) p)
    /\ h !! b = Some (RefList columns)
    /\ h !! p = Some (PosList (locations s))
    /\ Forall2 (fun c cells => h !! c = Some (IntList cells)) columns (board s)
    /\ NoDup columns.

(** [Owned n h g s]: the instance at [g] represents [s], and the
    objects that make it up and can be written through it all sit at
    locations [n] and above. *)
Definition Owned (n : nat) (h : heap) (g : loc) (s : GameState) : Prop :=
  exists b p columns,
    h !! g = Some (Instance b (active s) p)
    /\ h !! b = Some (RefList columns)
    /\ h !! p = Some (PosList (locations s))
    /\ Forall2 (fun c cells => h !! c = Some (IntList cells)) columns (board s)
    /\ NoDup columns
    /\ (n <= g)%nat /\ (n <= p)%nat /\ Forall (fun c => (n <= c)%nat) columns.

(** ** Rays, declaratively *)

(** How many more times the loop test can be reached from [(x, y)]
    going in direction [(dx, dy)], while the next cell is on the
    board. *)
Definition ray_room (dx dy x y : Z) : Z :=
  if dx =? 0 then (if 0 <? dy then ylim - y else y + 1)
  else (if 0 <? dx then xlim - x else x + 1).

(** The cell [k] steps from [(x0, y0)] in direction [d]. *)
Definition ray_cell (x0 y0 : Z) (d : Z * Z) (k : nat) : coord :=
  (x0 + Z.of_nat k * fst d, y0 + Z.of_nat k * snd d).

(** [seg] is what the ray from [(x0, y0)] in direction [d] contributes:
    the cells at distance 1, 2, ..., [n], all on the board and open,
    where the cell at distance [n + 1] is off the board or blocked. *)
Definition ray_segment (b : list (list Z)) (x0 y0 : Z) (d : Z * Z)
           (seg : list coord) : Prop :=
  exists n,
    seg = map (ray_cell x0 y0 d) (seq 1 n)
    /\ (forall k, (1 <= k <= n)%nat ->
                  on_board (fst (ray_cell x0 y0 d k)) (snd (ray_cell x0 y0 d k)) = true
                  /\ is_open b (ray_cell x0 y0 d k) = true)
    /\ (on_board (fst (ray_cell x0 y0 d (S n))) (snd (ray_cell x0 y0 d (S n))) = false
        \/ is_blocked b (ray_cell x0 y0 d (S n)) = true).

(** ** Search values *)

Definition in_range (v : num) : Prop := exists z, v = Int z /\ -1 <= z <= 1.

(** The int inside a search value (0 for the infinities, which the
    lemmas below show do not occur). *)
Definition int_of (v : num) : Z :=
  match v with Int z => z | _ => 0 end.

Definition is_max (v : Z) (zs : list Z) : Prop := v ∈ zs /\ Forall (fun w => w <= v) zs.
Definition is_min (v : Z) (zs : list Z) : Prop := v ∈ zs /\ Forall (fun w => v <= w) zs.

(** [child_value eval h self mv depth z]: forecasting [mv] from [self]
    in store [h] and evaluating the child with [eval] at [depth]
    returns the int [z]. *)
Definition child_value (eval : loc -> Z -> M num) (h : heap) (self : loc)
           (mv : coord) (depth : Z) (z : Z) : Prop :=
  exists h', (let* child := forecast_move self mv in eval child depth) h = (h', Ok (Int z)).

(** One iteration of the loop of [minimax_decision], on a score
    function [g]. *)
Definition pick (g : coord -> num) (acc : num * option coord) (m : coord)
  : num * option coord :=
  if num_ltb (fst acc) (g m) then (g m, Some m) else acc.

(** ** Lines of play *)

Definition initial_state : GameState :=
  {| board := [[0; 0]; [0; 0]; [0; 1]]; active := 0; locations := [None; None] |}.

Definition after_first_move : GameState :=
  {| board := [[1; 0]; [0; 0]; [0; 1]]; active := 1; locations := [Some (0, 0); None] |}.

Definition after_second_move : GameState :=
  {| board := [[1; 0]; [0; 1]; [0; 1]]; active := 0;
     locations := [Some (0, 0); Some (1, 1)] |}.

(** A caller that builds the initial state and applies the moves one
    after another, keeping every state it went through. *)
Fixpoint play_from (self : loc) (ms : list coord) : M (list loc) :=
  match ms with
  | [] => ret [self]
  | m :: ms' =>
      let* child := forecast_move self m in
      let* rest := play_from child ms' in
      ret (self :: rest)
  end.

Definition play (ms : list coord) : M (list loc) :=
  let* root := __init__ in play_from root ms.

(** The states along a line of play, as values. *)
Fixpoint line (s : GameState) (ms : list coord) : list GameState :=
  s :: match ms with
       | [] => []
       | m :: ms' => line (apply_move s m) ms'
       end.

Fixpoint legal_line (s : GameState) (ms : list coord) : Prop :=
  match ms with
  | [] => True
  | m :: ms' => m ∈ legal_moves s /\ legal_line (apply_move s m) ms'
  end.

(** Every placed player stands on a blocked cell. *)
Definition players_blocked (s : GameState) : Prop :=
  forall p pos, locations s !! p = Some (Some pos) -> is_blocked (board s) pos = true.

(** ** Termination *)

(** A computation terminates when, in every store, it returns or
    raises within the iterations its loops were granted. *)
Definition terminates {A} (m : M A) : Prop := forall h, snd (m h) <> OutOfFuel.

(** ** Stores used as concrete inputs *)

(** The store after [GameState()] on the empty store; the instance is
    at location 5. *)
Definition store0 : heap := Eval vm_compute in fst (__init__ []).

(** The store after player 0 moves to (0,0); the child is at 11. *)
Definition store1 : heap := Eval vm_compute in fst (forecast_move 5%nat (0, 0) store0).

(** The store after player 1 then moves to (1,1); the child is at 17
    and player 0, placed at (0,0), is to move. *)
Definition store2 : heap := Eval vm_compute in fst (forecast_move 11%nat (1, 1) store1).

(** ** Games *)

(** Negation of a search value. *)
Definition neg (v : num) : num :=
  match v with
  | NegInf => PosInf
  | Int z => Int (- z)
  | PosInf => NegInf
  end.

(** The open cells of a board, and how many a state has. *)
Definition open_cells (b : list (list Z)) : list coord :=
  List.filter (is_open b) row_major.

Definition open_count (s : GameState) : nat := length (open_cells (board s)).

Definition blocked_count (s : GameState) : nat :=
  length (List.filter (is_blocked (board s)) row_major).

(** The game itself, on instances of the store: the player to move
    wins if some move that [forecast_move] accepts leads to an instance
    that loses, and loses if every move that [forecast_move] accepts
    leads to an instance that wins (in particular when none is
    accepted). *)
Inductive wins : heap -> loc -> Prop :=
| wins_by h self mv h' child :
    forecast_move self mv h = (h', Ok child) -> loses h' child -> wins h self
with loses : heap -> loc -> Prop :=
| loses_all h self :
    (forall mv h' child, forecast_move self mv h = (h', Ok child) -> wins h' child) ->
    loses h self.

(** [child_terminal h self mv b]: forecasting [mv] from [self] in store
    [h] and testing the child with [terminal_test] returns [b]. *)
Definition child_terminal (h : heap) (self : loc) (mv : coord) (b : bool) : Prop :=
  exists h', (let* child := forecast_move self mv in terminal_test child) h = (h', Ok b).

(** ** Running computations *)

Lemma bind_ok {A B} (m : M A) (k : A -> M B) h h' a :
  m h = (h', Ok a) -> bind m k h = k a h'.
Proof. intros E. unfold bind. now rewrite E. Qed.

Lemma bind_raise {A B} (m : M A) (k : A -> M B) h h' e :
  m h = (h', Raise e) -> bind m k h = (h', Raise e).
Proof. intros E. unfold bind. now rewrite E. Qed.

Lemma load_at h l o : h !! l = Some o -> load l h = (h, Ok o).
Proof. intros E. unfold load. now rewrite E. Qed.

Lemma load_instance_at h l b ap p :
  h !! l = Some (Instance b ap p) -> load_instance l h = (h, Ok (b, ap, p)).
Proof. intros E. unfold load_instance. now rewrite (bind_ok _ _ _ _ _ (load_at _ _ _ E)). Qed.

Lemma load_refs_at h l rs :
  h !! l = Some (RefList rs) -> load_refs l h = (h, Ok rs).
Proof. intros E. unfold load_refs. now rewrite (bind_ok _ _ _ _ _ (load_at _ _ _ E)). Qed.

Lemma load_ints_at h l xs :
  h !! l = Some (IntList xs) -> load_ints l h = (h, Ok xs).
Proof. intros E. unfold load_ints. now rewrite (bind_ok _ _ _ _ _ (load_at _ _ _ E)). Qed.

Lemma load_slots_at h l ps :
  h !! l = Some (PosList ps) -> load_slots l h = (h, Ok ps).
Proof. intros E. unfold load_slots. now rewrite (bind_ok _ _ _ _ _ (load_at _ _ _ E)). Qed.

Lemma py_index_nonneg n i :
  0 <= i < Z.of_nat n -> py_index n i = Some (Z.to_nat i).
Proof.
  intros H. unfold py_index.
  destruct (Z.leb_spec 0 i); [|lia]. destruct (Z.ltb_spec i (Z.of_nat n)); [|lia].
  reflexivity.
Qed.

Lemma getitem_at {A} (l : list A) i a h :
  0 <= i -> l !! Z.to_nat i = Some a -> getitem l i h = (h, Ok a).
Proof.
  intros Hi E. unfold getitem.
  assert (Z.to_nat i < length l)%nat by (eapply lookup_lt_Some; eauto).
  rewrite py_index_nonneg by lia. now rewrite E.
Qed.

Lemma setitem_at {A} (l : list A) i a h :
  0 <= i < Z.of_nat (length l) ->
  setitem l i a h = (h, Ok (<[Z.to_nat i := a]> l)).
Proof. intros Hi. unfold setitem. now rewrite py_index_nonneg by lia. Qed.

(** ** Instances that represent a state *)

Lemma read_columns_Forall2 h columns b :
  read_columns h columns = Some b <->
  Forall2 (fun c cells => h !! c = Some (IntList cells)) columns b.
Proof.
  revert b. induction columns as [|c rest IH]; intros b; simpl.
  - split; intros H; [injection H as <-; constructor | inversion H; reflexivity].
  - split.
    + destruct (h !! c) as [[cells| | |]|] eqn:E; try discriminate.
      destruct (read_columns h rest) as [b'|] eqn:E'; try discriminate.
      intros [= <-]. constructor; [assumption | now apply IH].
    + intros H. inversion H as [|? cells ? b' Hc Hrest]; subst.
      rewrite Hc. apply IH in Hrest. now rewrite Hrest.
Qed.

Lemma Rep_read_state h self s : Rep h self s -> read_state h self = Some s.
Proof.
  intros (b & p & columns & Hs & Hb & Hp & Hc & _).
  unfold read_state. rewrite Hs, Hb, Hp.
  apply read_columns_Forall2 in Hc. rewrite Hc. now destruct s.
Qed.

Lemma Rep_columns_of h self s :
  Rep h self s -> exists columns, columns_of h self = Some columns /\ NoDup columns.
Proof.
  intros (b & p & columns & Hs & Hb & _ & _ & Hn).
  exists columns. unfold columns_of. now rewrite Hs, Hb.
Qed.

Lemma Rep_well_formed h self s :
  Rep h self s -> shape_ok s = true -> well_formed h self = true.
Proof.
  intros HR Hsh. unfold well_formed.
  rewrite (Rep_read_state _ _ _ HR).
  destruct (Rep_columns_of _ _ _ HR) as (columns & -> & Hn).
  rewrite Hsh. simpl. now apply bool_decide_eq_true.
Qed.

Lemma well_formed_inv h self :
  well_formed h self = true ->
  exists s, read_state h self = Some s /\ Rep h self s /\ shape_ok s = true.
Proof.
  unfold well_formed, read_state, columns_of.
  destruct (h !! self) as [[| | |b ap p]|] eqn:Hs; try discriminate.
  destruct (h !! b) as [[|columns| |]|] eqn:Hb; try discriminate.
  destruct (h !! p) as [[| |slots|]|] eqn:Hp; try discriminate.
  destruct (read_columns h columns) as [cells|] eqn:Hc; try discriminate.
  intros H. apply andb_true_iff in H as [Hsh Hn].
  apply bool_decide_eq_true in Hn.
  exists (mkGameState cells ap slots). split; [reflexivity|]. split; [|assumption].
  exists b, p, columns. simpl. repeat split; try assumption.
  now apply read_columns_Forall2.
Qed.

Lemma Rep_functional h self s s' : Rep h self s -> Rep h self s' -> s = s'.
Proof.
  intros H H'. apply Rep_read_state in H, H'. congruence.
Qed.

(** The store only grows at the end: everything in [h] is still in
    [h ++ k], so an instance keeps representing the same state. *)
Lemma Rep_app h k self s : Rep h self s -> Rep (h ++ k) self s.
Proof.
  intros (b & p & columns & Hs & Hb & Hp & Hc & Hn).
  exists b, p, columns. repeat split; try (now apply lookup_app_l_Some).
  - eapply Forall2_impl; [exact Hc|]. intros c cells E. now apply lookup_app_l_Some.
  - assumption.
Qed.

(** *** Cells *)

Lemma cell_of_at b x y :
  0 <= x -> 0 <= y -> cell b x y = cell_at b (Z.to_nat x) (Z.to_nat y).
Proof.
  intros Hx Hy. unfold cell.
  apply Z.leb_le in Hx, Hy. now rewrite Hx, Hy.
Qed.

Lemma cell_nonneg b x y v :
  cell b x y = Some v ->
  0 <= x /\ 0 <= y /\ cell_at b (Z.to_nat x) (Z.to_nat y) = Some v.
Proof.
  unfold cell. destruct (Z.leb_spec 0 x); [|discriminate].
  destruct (Z.leb_spec 0 y); [|discriminate]. simpl. auto.
Qed.

Lemma cell_at_alter_same b X Y v v0 :
  cell_at b X Y = Some v0 ->
  cell_at (alter (fun col => <[Y := v]> col) X b) X Y = Some v.
Proof.
  unfold cell_at. rewrite list_lookup_alter_eq.
  destruct (b !! X) as [col|]; [|discriminate]. simpl.
  intros H. apply list_lookup_insert_eq. eapply lookup_lt_Some; eauto.
Qed.

Lemma cell_at_alter_other b X Y v i j :
  (i, j) <> (X, Y) ->
  cell_at (alter (fun col => <[Y := v]> col) X b) i j = cell_at b i j.
Proof.
  intros Hne. unfold cell_at.
  destruct (decide (X = i)) as [E|E].
  - rewrite <- E, list_lookup_alter_eq.
    destruct (b !! X) as [col|]; [|reflexivity]. simpl.
    apply list_lookup_insert_ne. congruence.
  - now rewrite list_lookup_alter_ne.
Qed.

(** *** Shape facts *)

Lemma shape_ok_inv s :
  shape_ok s = true ->
  length (board s) = Z.to_nat xlim
  /\ Forall (fun col => length col = Z.to_nat ylim) (board s)
  /\ length (locations s) = 2%nat
  /\ (active s = 0 \/ active s = 1).
Proof.
  unfold shape_ok. intros H.
  apply andb_true_iff in H as [H H4]. apply andb_true_iff in H as [H H3].
  apply andb_true_iff in H as [H1 H2].
  apply Nat.eqb_eq in H1, H3.
  repeat split; try assumption.
  - apply Forall_forall. intros col Hin.
    rewrite forallb_forall in H2. apply Nat.eqb_eq, H2.
    now apply list_elem_of_In.
  - apply orb_true_iff in H4 as [H4|H4]; apply Z.eqb_eq in H4; auto.
Qed.

Lemma on_board_inv x y :
  on_board x y = true -> 0 <= x < xlim /\ 0 <= y < ylim.
Proof.
  unfold on_board. intros H.
  apply andb_true_iff in H as [H1 H2].
  apply andb_true_iff in H1 as [H1 H1']. apply andb_true_iff in H2 as [H2 H2'].
  apply Z.leb_le in H1, H2. apply Z.ltb_lt in H1', H2'. lia.
Qed.

Lemma on_board_intro x y :
  0 <= x < xlim -> 0 <= y < ylim -> on_board x y = true.
Proof.
  intros [H1 H1'] [H2 H2']. unfold on_board.
  apply Z.leb_le in H1, H2. apply Z.ltb_lt in H1', H2'.
  now rewrite H1, H1', H2, H2'.
Qed.

Lemma cell_on_board s x y :
  shape_ok s = true -> on_board x y = true ->
  exists v, cell (board s) x y = Some v.
Proof.
  intros Hsh Hon. apply shape_ok_inv in Hsh as (Hl & Hcols & _ & _).
  apply on_board_inv in Hon as [Hx Hy].
  rewrite cell_of_at by lia. unfold cell_at.
  destruct (lookup_lt_is_Some_2 (board s) (Z.to_nat x)) as [col Hcol]; [lia|].
  rewrite Hcol.
  assert (length col = Z.to_nat ylim) as Hlen.
  { rewrite Forall_forall in Hcols. apply Hcols. eapply list_elem_of_lookup_2; eauto. }
  destruct (lookup_lt_is_Some_2 col (Z.to_nat y)) as [v Hv]; [lia|].
  eauto.
Qed.

(** *** Reading attributes and cells *)

Lemma attr_board_at h self b ap p :
  h !! self = Some (Instance b ap p) -> attr_board self h = (h, Ok b).
Proof.
  intros E. unfold attr_board.
  now rewrite (bind_ok _ _ _ _ _ (load_instance_at _ _ _ _ _ E)).
Qed.

Lemma attr_active_player_at h self b ap p :
  h !! self = Some (Instance b ap p) -> attr_active_player self h = (h, Ok ap).
Proof.
  intros E. unfold attr_active_player.
  now rewrite (bind_ok _ _ _ _ _ (load_instance_at _ _ _ _ _ E)).
Qed.

Lemma attr_player_locations_at h self b ap p :
  h !! self = Some (Instance b ap p) -> attr_player_locations self h = (h, Ok p).
Proof.
  intros E. unfold attr_player_locations.
  now rewrite (bind_ok _ _ _ _ _ (load_instance_at _ _ _ _ _ E)).
Qed.

Lemma board_cell_sim h self s x y v :
  Rep h self s -> 0 <= x -> 0 <= y ->
  cell (board s) x y = Some v ->
  board_cell self x y h = (h, Ok v).
Proof.
  intros (b & p & columns & Hs & Hb & Hp & Hc & _) Hx Hy Hv.
  rewrite (cell_of_at _ _ _ Hx Hy) in Hv. unfold cell_at in Hv.
  destruct (board s !! Z.to_nat x) as [col|] eqn:Hcol; [|discriminate].
  destruct (Forall2_lookup_r _ _ _ _ _ Hc Hcol) as (c & Hcl & Hcc).
  unfold board_cell.
  rewrite (bind_ok _ _ _ _ _ (attr_board_at _ _ _ _ _ Hs)). unfold getitem2.
  rewrite (bind_ok _ _ _ _ _ (load_refs_at _ _ _ Hb)).
  rewrite (bind_ok _ _ _ _ _ (getitem_at _ _ _ _ Hx Hcl)).
  rewrite (bind_ok _ _ _ _ _ (load_ints_at _ _ _ Hcc)).
  now apply getitem_at.
Qed.

(** *** Loops that only append *)

Lemma foreach_append {A B} (l : list A) (body : A -> list B -> M (list B))
      (f : A -> list B) h :
  (forall a acc, a ∈ l -> body a acc h = (h, Ok (acc ++ f a))) ->
  forall acc, foreach l body acc h = (h, Ok (acc ++ flat_map f l)).
Proof.
  induction l as [|a l IH]; intros Hbody acc; simpl.
  - now rewrite app_nil_r.
  - rewrite (bind_ok _ _ _ _ _ (Hbody a acc ltac:(left))).
    rewrite IH by (intros; apply Hbody; now right).
    now rewrite <- app_assoc.
Qed.

Lemma filter_flat_map {A B} (p : B -> bool) (f : A -> list B) l :
  List.filter p (flat_map f l) = flat_map (fun a => List.filter p (f a)) l.
Proof.
  induction l as [|a l IH]; simpl; [reflexivity|].
  now rewrite List.filter_app, IH.
Qed.

Lemma filter_map_singletons {A B} (p : B -> bool) (g : A -> B) l :
  List.filter p (map g l) = flat_map (fun a => if p (g a) then [g a] else []) l.
Proof.
  induction l as [|a l IH]; simpl; [reflexivity|].
  rewrite IH. now destruct (p (g a)).
Qed.

Lemma range_nonneg n x : x ∈ range n -> 0 <= x < n.
Proof.
  unfold range. intros H. apply list_elem_of_In, in_map_iff in H as (k & <- & Hk).
  apply in_seq in Hk. lia.
Qed.

(** *** [_get_blank_spaces] *)

Lemma _get_blank_spaces_sim h self s :
  Rep h self s -> shape_ok s = true ->
  _get_blank_spaces self h = (h, Ok (List.filter (is_open (board s)) row_major)).
Proof.
  intros HR Hsh. unfold _get_blank_spaces, row_major.
  rewrite filter_flat_map.
  erewrite flat_map_ext; [|intros y; apply filter_map_singletons].
  apply (foreach_append (range ylim) _
           (fun y => flat_map (fun x => if is_open (board s) (x, y) then [(x, y)] else [])
                              (range xlim))).
  intros y acc Hy. apply foreach_append.
  intros x acc' Hx.
  apply range_nonneg in Hx, Hy.
  destruct (cell_on_board s x y Hsh) as [v Hv]; [now apply on_board_intro|].
  rewrite (bind_ok _ _ _ _ _ (board_cell_sim h self s x y v HR ltac:(lia) ltac:(lia) Hv)).
  unfold is_open. simpl. rewrite Hv.
  destruct (v =? 0); [reflexivity|]. now rewrite app_nil_r.
Qed.

(** *** The ray walk *)

Lemma rays_inv dx dy :
  (dx, dy) ∈ rays ->
  (dx = 1 \/ dx = 0 \/ dx = -1) /\ (dy = 1 \/ dy = 0 \/ dy = -1)
  /\ (dx <> 0 \/ dy <> 0).
Proof.
  unfold rays. intros H.
  repeat (apply elem_of_cons in H as [H|H]; [injection H as -> ->; lia|]).
  inversion H.
Qed.

Lemma ray_room_step dx dy x y :
  (dx, dy) ∈ rays -> on_board (x + dx) (y + dy) = true ->
  2 <= ray_room dx dy x y <= Z.max xlim ylim + 1
  /\ ray_room dx dy (x + dx) (y + dy) = ray_room dx dy x y - 1.
Proof.
  intros Hd Hon. apply rays_inv in Hd as (Hdx & Hdy & Hnz).
  apply on_board_inv in Hon. unfold ray_room.
  destruct Hdx as [->| [->| ->]]; destruct Hdy as [->| [->| ->]]; simpl; lia.
Qed.

Lemma ray_while_sim h self s dx dy :
  Rep h self s -> shape_ok s = true -> (dx, dy) ∈ rays ->
  forall fuel x y moves,
    (1 <= fuel)%nat ->
    (on_board (x + dx) (y + dy) = true -> ray_room dx dy x y <= Z.of_nat fuel) ->
    ray_while fuel self dx dy x y moves h
    = (h, Ok (moves ++ walk fuel (board s) dx dy x y)).
Proof.
  intros HR Hsh Hd. induction fuel as [|fuel IH]; intros x y moves H1 Hroom; [lia|].
  simpl. fold (on_board (x + dx) (y + dy)).
  destruct (on_board (x + dx) (y + dy)) eqn:Hon; simpl; [|now rewrite app_nil_r].
  destruct (ray_room_step dx dy x y Hd Hon) as [Hr Hr'].
  specialize (Hroom eq_refl).
  destruct (cell_on_board s _ _ Hsh Hon) as [v Hv].
  apply on_board_inv in Hon as Hxy.
  rewrite (bind_ok _ _ _ _ _ (board_cell_sim h self s (x + dx) (y + dy) v HR ltac:(lia) ltac:(lia) Hv)).
  unfold is_open. simpl. rewrite Hv.
  destruct (v =? 0); simpl; [|now rewrite app_nil_r].
  rewrite IH.
  - now rewrite <- app_assoc.
  - lia.
  - intros _. lia.
Qed.

Lemma getitem_slot s :
  shape_ok s = true ->
  exists slot, locations s !! Z.to_nat (active s) = Some slot
               /\ forall h, getitem (locations s) (active s) h = (h, Ok slot).
Proof.
  intros Hsh. apply shape_ok_inv in Hsh as (_ & _ & Hl & Ha).
  destruct (lookup_lt_is_Some_2 (locations s) (Z.to_nat (active s))) as [slot Hslot];
    [lia|].
  exists slot. split; [assumption|]. intros h. apply getitem_at; [lia|assumption].
Qed.

(** [get_legal_moves] reads the store and leaves it as it is. *)
Lemma get_legal_moves_sim h self s :
  Rep h self s -> shape_ok s = true ->
  get_legal_moves self h = (h, Ok (legal_moves s)).
Proof.
  intros HR Hsh.
  destruct (getitem_slot s Hsh) as (slot & Hslot & Hget).
  pose proof HR as (b & p & columns & Hs & Hb & Hp & Hc & Hn).
  unfold get_legal_moves, legal_moves.
  rewrite (bind_ok _ _ _ _ _ (attr_player_locations_at _ _ _ _ _ Hs)).
  rewrite (bind_ok _ _ _ _ _ (load_slots_at _ _ _ Hp)).
  rewrite (bind_ok _ _ _ _ _ (attr_active_player_at _ _ _ _ _ Hs)).
  rewrite (bind_ok _ _ _ _ _ (Hget h)). rewrite Hslot.
  destruct slot as [[x0 y0]|]; [|now apply _get_blank_spaces_sim].
  apply (foreach_append rays _
           (fun d => walk ray_fuel (board s) (fst d) (snd d) x0 y0) h).
  intros [dx dy] acc Hd. cbv beta iota. unfold fst, snd.
  apply (ray_while_sim h self s dx dy HR Hsh Hd).
  - unfold ray_fuel. lia.
  - intros Hon. destruct (ray_room_step dx dy x0 y0 Hd Hon) as [Hr _].
    unfold ray_fuel. lia.
Qed.

(** *** Legal moves are open cells of the board *)

Lemma walk_open b dx dy c :
  forall fuel x y, c ∈ walk fuel b dx dy x y ->
                   on_board (fst c) (snd c) = true /\ is_open b c = true.
Proof.
  induction fuel as [|fuel IH]; intros x y Hin; simpl in Hin; [inversion Hin|].
  destruct (on_board (x + dx) (y + dy)) eqn:Hon; simpl in Hin; [|inversion Hin].
  destruct (is_open b (x + dx, y + dy)) eqn:Hop; [|inversion Hin].
  apply elem_of_cons in Hin as [->|Hin]; [now split|]. eauto.
Qed.

Lemma row_major_on_board c : c ∈ row_major -> on_board (fst c) (snd c) = true.
Proof.
  unfold row_major. intros H.
  apply list_elem_of_In, in_flat_map in H as (y & Hy & H).
  apply in_map_iff in H as (x & <- & Hx).
  apply list_elem_of_In, range_nonneg in Hx, Hy. now apply on_board_intro.
Qed.

Lemma legal_moves_open s c :
  c ∈ legal_moves s ->
  on_board (fst c) (snd c) = true /\ is_open (board s) c = true.
Proof.
  unfold legal_moves.
  destruct (locations s !! Z.to_nat (active s)) as [[[x0 y0]|]|]; intros H.
  - apply list_elem_of_In, in_flat_map in H as (d & _ & H).
    apply list_elem_of_In in H. eapply walk_open; eauto.
  - apply list_elem_of_In, filter_In in H as [H Hop].
    split; [|assumption]. now apply row_major_on_board, list_elem_of_In.
  - inversion H.
Qed.

(** ** Copying and writing *)

Lemma Owned_Rep n h g s : Owned n h g s -> Rep h g s.
Proof.
  intros (b & p & columns & H1 & H2 & H3 & H4 & H5 & _).
  exists b, p, columns. auto.
Qed.

Lemma memo_lookup_cons_ne memo c c' l :
  c <> l -> memo_lookup ((c, c') :: memo) l = memo_lookup memo l.
Proof.
  intros Hne. unfold memo_lookup. simpl.
  destruct (Nat.eqb_spec c l); [contradiction|reflexivity].
Qed.

Lemma deepcopy_columns_sim :
  forall columns b h memo,
    Forall2 (fun c cells => h !! c = Some (IntList cells)) columns b ->
    NoDup columns ->
    (forall c, c ∈ columns -> memo_lookup memo c = None) ->
    deepcopy_columns columns memo h
    = (h ++ map IntList b, Ok (seq (length h) (length columns))).
Proof.
  induction columns as [|c rest IH]; intros b h memo Hc Hn Hm.
  - inversion Hc; subst. simpl. now rewrite app_nil_r.
  - inversion Hc as [|? cells ? b' Hcell Hrest]; subst.
    apply NoDup_cons in Hn as [Hnotin Hn].
    simpl. rewrite (Hm c) by left.
    rewrite (bind_ok _ _ _ _ _ (load_ints_at _ _ _ Hcell)).
    unfold alloc at 1. unfold bind at 1.
    erewrite (bind_ok _ _ _ _ _ (IH b' (h ++ [IntList cells]) ((c, length h) :: memo) _ Hn _)).
    + unfold ret. rewrite <- app_assoc. simpl.
      rewrite length_app. simpl. now rewrite Nat.add_1_r.
    Unshelve.
    * eapply Forall2_impl; [exact Hrest|]. intros. now apply lookup_app_l_Some.
    * intros c0 Hc0. rewrite memo_lookup_cons_ne; [apply Hm; now right|].
      intros ->. contradiction.
Qed.

Lemma lookup_app_at {A} (h : list A) k i :
  (h ++ k) !! (length h + i)%nat = k !! i.
Proof. rewrite lookup_app_r by lia. f_equal. lia. Qed.

(** [deepcopy] appends a copy of every object of the instance and
    touches nothing else. *)
Lemma deepcopy_sim h self s :
  Rep h self s ->
  exists k g,
    deepcopy self h = (h ++ k, Ok g) /\ Owned (length h) (h ++ k) g s.
Proof.
  intros (b & p & columns & Hs & Hb & Hp & Hc & Hn).
  set (n := length h). set (m := length columns).
  exists (map IntList (board s)
          ++ [RefList (seq n m); PosList (locations s);
              Instance (n + m)%nat (active s) (n + m + 1)%nat]),
         (n + m + 2)%nat.
  assert (length (board s) = m) as Hlen by (symmetry; eapply Forall2_length; eauto).
  assert (length (map IntList (board s)) = m) as Hlen' by now rewrite length_map.
  split.
  - unfold deepcopy.
    rewrite (bind_ok _ _ _ _ _ (load_instance_at _ _ _ _ _ Hs)).
    rewrite (bind_ok _ _ _ _ _ (load_refs_at _ _ _ Hb)).
    rewrite (bind_ok _ _ _ _ _ (deepcopy_columns_sim columns (board s) h [] Hc Hn
                                   ltac:(reflexivity))).
    unfold alloc at 1. unfold bind at 1.
    assert (((h ++ map IntList (board s)) ++ [RefList (seq n m)]) !! p
            = Some (PosList (locations s))) as Hp'
        by (rewrite <- app_assoc; now apply lookup_app_l_Some).
    rewrite (bind_ok _ _ _ _ _ (load_slots_at _ _ _ Hp')).
    unfold alloc, bind. rewrite !length_app, Hlen'. simpl.
    rewrite <- !app_assoc. simpl. fold n.
    f_equal. f_equal. lia.
  - exists (n + m)%nat, (n + m + 1)%nat, (seq n m).
    rewrite !app_assoc.
    assert (length (h ++ map IntList (board s)) = (n + m)%nat) as Hl
        by (rewrite length_app; fold n; lia).
    repeat split.
    + replace (n + m + 2)%nat with (length (h ++ map IntList (board s)) + 2)%nat by lia.
      now rewrite lookup_app_at.
    + replace (n + m)%nat with (length (h ++ map IntList (board s)) + 0)%nat at 1 by lia.
      now rewrite lookup_app_at.
    + replace (n + m + 1)%nat with (length (h ++ map IntList (board s)) + 1)%nat by lia.
      now rewrite lookup_app_at.
    + apply Forall2_same_length_lookup. split; [now rewrite length_seq|].
      intros i c cells Hi Hcells.
      apply lookup_seq in Hi as [-> Hi].
      apply lookup_app_l_Some. unfold n. rewrite lookup_app_at.
      now rewrite list_lookup_fmap, Hcells.
    + apply NoDup_seq.
    + lia.
    + lia.
    + apply Forall_forall. intros c Hc'. apply elem_of_seq in Hc'. lia.
Qed.

Lemma alloc_at o h : alloc o h = (h ++ [o], Ok (length h)).
Proof. reflexivity. Qed.

Lemma store_at h l o o0 :
  h !! l = Some o0 -> store l o h = (<[l:=o]> h, Ok tt).
Proof. intros E. unfold store. now rewrite E. Qed.

Lemma lookup_insert_other (h : heap) l l' o o0 o' :
  h !! l = Some o0 -> h !! l' = Some o' ->
  (l = l' -> o = o') ->
  <[l:=o]> h !! l' = Some o'.
Proof.
  intros Hl Hl' Heq. destruct (decide (l = l')) as [->|Hne].
  - rewrite Heq by reflexivity. apply list_lookup_insert_eq.
    eapply lookup_lt_Some; eauto.
  - now rewrite list_lookup_insert_ne.
Qed.

(** Writing one cell through the instance changes that cell of that
    column and nothing else. *)
Lemma Owned_set_cell n h g s x y v v0 :
  Owned n h g s -> 0 <= x -> 0 <= y ->
  cell (board s) x y = Some v0 ->
  exists h',
    set_board_cell g x y v h = (h', Ok tt)
    /\ take n h' = take n h
    /\ Owned n h' g
         {| board := alter (fun col => <[Z.to_nat y := v]> col) (Z.to_nat x) (board s);
            active := active s;
            locations := locations s |}.
Proof.
  intros (b & p & columns & Hg & Hb & Hp & Hc & Hn & Hng & Hnp & Hnc) Hx Hy Hv.
  rewrite (cell_of_at _ _ _ Hx Hy) in Hv. unfold cell_at in Hv.
  destruct (board s !! Z.to_nat x) as [col|] eqn:Hcol; [|discriminate].
  destruct (Forall2_lookup_r _ _ _ _ _ Hc Hcol) as (c & Hcl & Hcc).
  assert (n <= c)%nat as Hnc'.
  { rewrite Forall_forall in Hnc. apply Hnc. eapply list_elem_of_lookup_2; eauto. }
  exists (<[c := IntList (<[Z.to_nat y := v]> col)]> h). split; [|split].
  - unfold set_board_cell.
    rewrite (bind_ok _ _ _ _ _ (attr_board_at _ _ _ _ _ Hg)). unfold setitem2.
    rewrite (bind_ok _ _ _ _ _ (load_refs_at _ _ _ Hb)).
    rewrite (bind_ok _ _ _ _ _ (getitem_at _ _ _ _ Hx Hcl)).
    rewrite (bind_ok _ _ _ _ _ (load_ints_at _ _ _ Hcc)).
    apply lookup_lt_Some in Hv.
    rewrite (bind_ok _ _ _ _ _ (setitem_at col y v h ltac:(lia))).
    now apply (store_at h c _ (IntList col)).
  - now apply take_insert_ge.
  - exists b, p, columns. simpl. repeat split; try assumption.
    + eapply lookup_insert_other; eauto. intros ->. congruence.
    + eapply lookup_insert_other; eauto. intros ->. congruence.
    + eapply lookup_insert_other; eauto. intros ->. congruence.
    + apply Forall2_same_length_lookup. split.
      { rewrite length_alter. eapply Forall2_length; eauto. }
      intros i ci cells' Hci Hcells'.
      destruct (decide (i = Z.to_nat x)) as [->|Hne].
      * rewrite list_lookup_alter_eq, Hcol in Hcells'. simpl in Hcells'.
        injection Hcells' as <-. assert (ci = c) as -> by congruence.
        apply list_lookup_insert_eq. eapply lookup_lt_Some; eauto.
      * rewrite list_lookup_alter_ne in Hcells' by congruence.
        pose proof (Forall2_lookup_lr _ _ _ _ _ _ Hc Hci Hcells') as Hh.
        rewrite list_lookup_insert_ne; [assumption|].
        intros ->. apply Hne. symmetry. eapply NoDup_lookup; eauto.
Qed.

(** Replacing the slot list object of the instance. *)
Lemma Owned_set_slots n h g s slots' :
  Owned n h g s ->
  exists b p,
    h !! g = Some (Instance b (active s) p)
    /\ h !! p = Some (PosList (locations s))
    /\ take n (<[p := PosList slots']> h) = take n h
    /\ Owned n (<[p := PosList slots']> h) g
         {| board := board s; active := active s; locations := slots' |}.
Proof.
  intros (b & p & columns & Hg & Hb & Hp & Hc & Hn & Hng & Hnp & Hnc).
  exists b, p. repeat split; try assumption.
  - now apply take_insert_ge.
  - exists b, p, columns. simpl. repeat split; try assumption.
    + eapply lookup_insert_other; eauto. intros ->. congruence.
    + eapply lookup_insert_other; eauto. intros ->. congruence.
    + apply list_lookup_insert_eq. eapply lookup_lt_Some; eauto.
    + eapply Forall2_impl; [exact Hc|]. intros c cells Hcc. simpl in Hcc.
      eapply lookup_insert_other; eauto. intros ->. congruence.
Qed.

(** Replacing the [active_player] attribute of the instance. *)
Lemma Owned_set_active n h g s ap' :
  Owned n h g s ->
  exists b p,
    h !! g = Some (Instance b (active s) p)
    /\ take n (<[g := Instance b ap' p]> h) = take n h
    /\ Owned n (<[g := Instance b ap' p]> h) g
         {| board := board s; active := ap'; locations := locations s |}.
Proof.
  intros (b & p & columns & Hg & Hb & Hp & Hc & Hn & Hng & Hnp & Hnc).
  exists b, p. repeat split; try assumption.
  - now apply take_insert_ge.
  - exists b, p, columns. simpl. repeat split; try assumption.
    + apply list_lookup_insert_eq. eapply lookup_lt_Some; eauto.
    + eapply lookup_insert_other; eauto. intros ->. congruence.
    + eapply lookup_insert_other; eauto. intros ->. congruence.
    + eapply Forall2_impl; [exact Hc|]. intros c cells Hcc. simpl in Hcc.
      eapply lookup_insert_other; eauto. intros ->. congruence.
Qed.

Lemma lookup_of_take (h h' : heap) n l o :
  take n h' = h -> h !! l = Some o -> h' !! l = Some o.
Proof.
  intros <- H. apply lookup_take_Some in H. tauto.
Qed.

Lemma existsb_move_eqb mv l : existsb (move_eqb mv) l = true <-> mv ∈ l.
Proof.
  rewrite existsb_exists. split.
  - intros (c & Hin & Heq). unfold move_eqb in Heq.
    apply andb_true_iff in Heq as [H1 H2]. apply Z.eqb_eq in H1, H2.
    destruct mv, c; simpl in *; subst. now apply list_elem_of_In.
  - intros Hin. exists mv. split; [now apply list_elem_of_In|].
    unfold move_eqb. now rewrite !Z.eqb_refl.
Qed.

(** ** [forecast_move] *)

Lemma forecast_move_illegal h self s mv :
  Rep h self s -> shape_ok s = true -> mv ∉ legal_moves s ->
  forecast_move self mv h = (h, Raise illegal_move).
Proof.
  intros HR Hsh Hnot. unfold forecast_move.
  rewrite (bind_ok _ _ _ _ _ (get_legal_moves_sim _ _ _ HR Hsh)).
  destruct (existsb (move_eqb mv) (legal_moves s)) eqn:E; [|reflexivity].
  apply existsb_move_eqb in E. contradiction.
Qed.

Lemma forecast_move_sim h self s mv :
  Rep h self s -> shape_ok s = true -> mv ∈ legal_moves s ->
  exists h' child,
    forecast_move self mv h = (h', Ok child)
    /\ take (length h) h' = h
    /\ Owned (length h) h' child (apply_move s mv).
Proof.
  intros HR Hsh Hin.
  destruct (legal_moves_open s mv Hin) as [Hon Hop].
  apply on_board_inv in Hon as [Hx Hy].
  unfold is_open in Hop.
  destruct (cell (board s) (fst mv) (snd mv)) as [v0|] eqn:Hv0; [|discriminate].
  pose proof (shape_ok_inv s Hsh) as (_ & _ & Hslots & Hact).
  pose proof HR as (b & p & columns & Hs & _).
  (* copy *)
  destruct (deepcopy_sim h self s HR) as (k & g & Hcopy & Hown).
  assert (take (length h) (h ++ k) = h) as Ht1 by apply take_app_length.
  (* write the cell *)
  destruct (Owned_set_cell (length h) (h ++ k) g s (fst mv) (snd mv) 1 v0 Hown
              ltac:(lia) ltac:(lia) Hv0) as (h2 & Hcell & Ht2 & Hown2).
  rewrite Ht1 in Ht2.
  (* write the slot *)
  destruct (Owned_set_slots (length h) h2 g _
              (<[Z.to_nat (active s) := Some mv]> (locations s)) Hown2)
    as (b2 & p2 & Hg2 & Hp2 & Ht3 & Hown3).
  simpl in Hg2, Hp2. rewrite Ht2 in Ht3.
  set (h3 := <[p2 := PosList (<[Z.to_nat (active s) := Some mv]> (locations s))]> h2) in *.
  (* flip the player *)
  destruct (Owned_set_active (length h) h3 g _ (Z.lxor (active s) 1) Hown3)
    as (b3 & p3 & Hg3 & Ht4 & Hown4).
  simpl in Hg3, Hown4. rewrite Ht3 in Ht4.
  exists (<[g := Instance b3 (Z.lxor (active s) 1) p3]> h3), g.
  split; [|split; [assumption|exact Hown4]].
  unfold forecast_move.
  rewrite (bind_ok _ _ _ _ _ (get_legal_moves_sim _ _ _ HR Hsh)).
  apply existsb_move_eqb in Hin. rewrite Hin. simpl.
  rewrite (bind_ok _ _ _ _ _ Hcopy).
  rewrite (bind_ok _ _ _ _ _ Hcell).
  rewrite (bind_ok _ _ _ _ _ (attr_player_locations_at _ _ _ _ _ Hg2)).
  rewrite (bind_ok _ _ _ _ _ (load_slots_at _ _ _ Hp2)).
  rewrite (bind_ok _ _ _ _ _
             (attr_active_player_at _ _ _ _ _ (lookup_of_take _ _ _ _ _ Ht2 Hs))).
  rewrite (bind_ok _ _ _ _ _ (setitem_at (locations s) (active s) (Some mv) h2
                                 ltac:(lia))).
  rewrite (bind_ok _ _ _ _ _ (store_at h2 p2 _ _ Hp2)). fold h3.
  rewrite (bind_ok _ _ _ _ _ (load_instance_at _ _ _ _ _ Hg3)).
  now rewrite (bind_ok _ _ _ _ _ (store_at h3 g _ _ Hg3)).
Qed.

Lemma shape_ok_apply_move s mv :
  shape_ok s = true -> shape_ok (apply_move s mv) = true.
Proof.
  intros Hsh. apply shape_ok_inv in Hsh as (Hl & Hc & Hs & Ha).
  unfold shape_ok, apply_move. simpl.
  rewrite length_alter, length_insert, Hl, Hs, !Nat.eqb_refl. simpl.
  apply andb_true_iff. split; [apply andb_true_iff; split; [|reflexivity]|].
  - apply forallb_forall. intros col Hin. apply Nat.eqb_eq.
    apply list_elem_of_In, list_elem_of_lookup in Hin as [i Hi].
    destruct (decide (Z.to_nat (fst mv) = i)) as [<-|Hne].
    + rewrite list_lookup_alter_eq in Hi.
      destruct (board s !! Z.to_nat (fst mv)) as [col0|] eqn:E; [|discriminate].
      injection Hi as <-. rewrite length_insert.
      rewrite Forall_forall in Hc. apply Hc. eapply list_elem_of_lookup_2; eauto.
    + rewrite list_lookup_alter_ne in Hi by assumption.
      rewrite Forall_forall in Hc. apply Hc. eapply list_elem_of_lookup_2; eauto.
  - destruct Ha as [->| ->]; reflexivity.
Qed.

Lemma take_length_app (h h' : heap) :
  take (length h) h' = h -> exists k, h' = h ++ k.
Proof.
  intros H. exists (drop (length h) h'). rewrite <- H at 1. now rewrite take_drop.
Qed.

(** ** Search over the store *)

Lemma Rep_prefix h h' self s : Rep h self s -> h `prefix_of` h' -> Rep h' self s.
Proof. intros HR [k ->]. now apply Rep_app. Qed.

(** A child produced by [forecast_move] is a well-shaped instance of
    the extended store, and the old store is a prefix of the new. *)
Lemma forecast_move_child h self s mv :
  Rep h self s -> shape_ok s = true -> mv ∈ legal_moves s ->
  exists h' child,
    forecast_move self mv h = (h', Ok child)
    /\ h `prefix_of` h'
    /\ Rep h' child (apply_move s mv)
    /\ shape_ok (apply_move s mv) = true.
Proof.
  intros HR Hsh Hin.
  destruct (forecast_move_sim h self s mv HR Hsh Hin) as (h' & child & Hf & Ht & Hown).
  exists h', child. repeat split.
  - assumption.
  - now apply take_length_app.
  - eapply Owned_Rep; eauto.
  - now apply shape_ok_apply_move.
Qed.

(** The child is a new object: its location is not one of the old
    store. *)
Lemma forecast_move_fresh h self s mv h' child :
  Rep h self s -> shape_ok s = true -> mv ∈ legal_moves s ->
  forecast_move self mv h = (h', Ok child) ->
  (length h <= child)%nat.
Proof.
  intros HR Hsh Hin Hf.
  destruct (forecast_move_sim h self s mv HR Hsh Hin)
    as (h'' & child' & Hf' & _ & (b & p & columns & _ & _ & _ & _ & _ & Hfresh & _)).
  congruence.
Qed.

(** The loop shared by the evaluators and the decision: forecast each
    move, evaluate the child, combine.  If the evaluator computes a
    function [value] of the state it is given, the loop computes the
    corresponding fold over the moves. *)
Lemma foreach_children {V W} self s (eval : loc -> M W) (value : GameState -> W)
      (f : V -> coord -> W -> V) (body : coord -> V -> M V) :
  shape_ok s = true ->
  (forall h child s', Rep h child s' -> shape_ok s' = true ->
                      exists h', eval child h = (h', Ok (value s')) /\ h `prefix_of` h') ->
  (forall mv v h, body mv v h
                  = (let* child := forecast_move self mv in
                     let* w := eval child in
                     ret (f v mv w)) h) ->
  forall l, Forall (fun mv => mv ∈ legal_moves s) l ->
  forall h v, Rep h self s ->
  exists h',
    foreach l body v h
    = (h', Ok (fold_left (fun v mv => f v mv (value (apply_move s mv))) l v))
    /\ h `prefix_of` h'.
Proof.
  intros Hsh Heval Hbody. induction l as [|mv l IH]; intros Hl h v HR; simpl.
  - exists h. split; reflexivity.
  - apply Forall_cons in Hl as [Hmv Hl].
    destruct (forecast_move_child h self s mv HR Hsh Hmv) as (h1 & child & Hf & Hp1 & HRc & Hshc).
    destruct (Heval h1 child _ HRc Hshc) as (h2 & He & Hp2).
    assert (body mv v h = (h2, Ok (f v mv (value (apply_move s mv))))) as Hb.
    { rewrite Hbody. rewrite (bind_ok _ _ _ _ _ Hf). now rewrite (bind_ok _ _ _ _ _ He). }
    rewrite (bind_ok _ _ _ _ _ Hb).
    assert (h `prefix_of` h2) as Hp by (etransitivity; eauto).
    destruct (IH Hl h2 (f v mv (value (apply_move s mv))) (Rep_prefix _ _ _ _ HR Hp))
      as (h3 & Hloop & Hp3).
    exists h3. split; [assumption|]. etransitivity; eauto.
Qed.

Lemma terminal_test_sim h self s :
  Rep h self s -> shape_ok s = true ->
  terminal_test self h
  = (h, Ok (match legal_moves s with [] => true | _ => false end)).
Proof.
  intros HR Hsh. unfold terminal_test.
  now rewrite (bind_ok _ _ _ _ _ (get_legal_moves_sim _ _ _ HR Hsh)).
Qed.

Lemma Forall_elem_of_self {A} (l : list A) : Forall (fun a => a ∈ l) l.
Proof. apply Forall_forall. auto. Qed.

(** Both evaluators compute the value functions of the state they are
    given, for any counter at least the depth, and only extend the
    store. *)
Lemma value_rec_sim :
  forall fuel h self s depth,
    Rep h self s -> shape_ok s = true -> (Z.to_nat depth <= fuel)%nat ->
    (exists h', min_value_rec fuel self depth h = (h', Ok (min_val (Z.to_nat depth) s))
                /\ h `prefix_of` h')
    /\ (exists h', max_value_rec fuel self depth h = (h', Ok (max_val (Z.to_nat depth) s))
                   /\ h `prefix_of` h').
Proof.
  induction fuel as [|fuel IH]; intros h self s depth HR Hsh Hfuel.
  - assert (Z.to_nat depth = 0%nat) as Hd by lia.
    assert (depth <= 0) as Hle by lia. apply Z.leb_le in Hle.
    rewrite Hd. simpl.
    rewrite !(bind_ok _ _ _ _ _ (terminal_test_sim _ _ _ HR Hsh)).
    destruct (legal_moves s); rewrite ?Hle; split; exists h; split; reflexivity.
  - destruct (Z.leb_spec depth 0) as [Hle|Hgt].
    + assert (Z.to_nat depth = 0%nat) as Hd by lia.
      apply Z.leb_le in Hle. rewrite Hd.
      cbn [min_value_rec max_value_rec min_val max_val].
      rewrite !(bind_ok _ _ _ _ _ (terminal_test_sim _ _ _ HR Hsh)).
      destruct (legal_moves s); rewrite ?Hle; split; exists h; split; reflexivity.
    + assert (Z.to_nat depth = S (Z.to_nat (depth - 1))) as Hd by lia.
      assert (Z.to_nat (depth - 1) <= fuel)%nat as Hfuel' by lia.
      apply Z.leb_gt in Hgt. rewrite Hd.
      cbn [min_value_rec max_value_rec min_val max_val].
      rewrite !(bind_ok _ _ _ _ _ (terminal_test_sim _ _ _ HR Hsh)).
      destruct (legal_moves s) as [|m0 ms] eqn:Hmoves;
        [split; exists h; split; reflexivity|].
      rewrite Hgt.
      rewrite !(bind_ok _ _ _ _ _ (get_legal_moves_sim _ _ _ HR Hsh)).
      rewrite Hmoves.
      assert (Forall (fun mv => mv ∈ legal_moves s) (m0 :: ms)) as Hall
          by (rewrite Hmoves; apply Forall_elem_of_self).
      split.
      * apply (foreach_children self s
                 (fun child => max_value_rec fuel child (depth - 1))
                 (max_val (Z.to_nat (depth - 1)))
                 (fun v _ w => py_min v w)); try assumption; try reflexivity.
        intros h1 child s' HRc Hshc.
        exact (proj2 (IH h1 child s' (depth - 1) HRc Hshc Hfuel')).
      * apply (foreach_children self s
                 (fun child => min_value_rec fuel child (depth - 1))
                 (min_val (Z.to_nat (depth - 1)))
                 (fun v _ w => py_max v w)); try assumption; try reflexivity.
        intros h1 child s' HRc Hshc.
        exact (proj1 (IH h1 child s' (depth - 1) HRc Hshc Hfuel')).
Qed.

(** ** Folds of [min] and [max] *)

Lemma in_range_int_of v : in_range v -> v = Int (int_of v) /\ -1 <= int_of v <= 1.
Proof. intros (z & -> & Hz). simpl. auto. Qed.

Lemma fold_py_max_ints zs :
  forall z0,
    exists v, fold_left py_max (map Int zs) (Int z0) = Int v
              /\ (v = z0 \/ v ∈ zs) /\ z0 <= v /\ Forall (fun w => w <= v) zs.
Proof.
  induction zs as [|z zs IH]; intros z0; simpl.
  - exists z0. repeat split; auto; lia.
  - unfold py_max at 2. simpl. destruct (Z.ltb_spec z0 z) as [Hlt|Hge].
    + destruct (IH z) as (v & -> & Hv & Hle & Hall). exists v. repeat split.
      * destruct Hv as [->|Hv]; right; [left|now right].
      * lia.
      * constructor; assumption.
    + destruct (IH z0) as (v & -> & Hv & Hle & Hall). exists v. repeat split.
      * destruct Hv as [->|Hv]; [now left|right; now right].
      * assumption.
      * constructor; [lia|assumption].
Qed.

Lemma fold_py_min_ints zs :
  forall z0,
    exists v, fold_left py_min (map Int zs) (Int z0) = Int v
              /\ (v = z0 \/ v ∈ zs) /\ v <= z0 /\ Forall (fun w => v <= w) zs.
Proof.
  induction zs as [|z zs IH]; intros z0; simpl.
  - exists z0. repeat split; auto; lia.
  - unfold py_min at 2. simpl. destruct (Z.ltb_spec z z0) as [Hlt|Hge].
    + destruct (IH z) as (v & -> & Hv & Hle & Hall). exists v. repeat split.
      * destruct Hv as [->|Hv]; right; [left|now right].
      * lia.
      * constructor; assumption.
    + destruct (IH z0) as (v & -> & Hv & Hle & Hall). exists v. repeat split.
      * destruct Hv as [->|Hv]; [now left|right; now right].
      * assumption.
      * constructor; [lia|assumption].
Qed.

(** Started from the sentinel, a fold over a non-empty list of ints
    returns their maximum (minimum): the sentinel does not survive the
    first iteration. *)
Lemma fold_py_max_is_max z zs :
  exists v, fold_left py_max (map Int (z :: zs)) NegInf = Int v /\ is_max v (z :: zs).
Proof.
  simpl. change (py_max NegInf (Int z)) with (Int z).
  destruct (fold_py_max_ints zs z) as (v & -> & Hv & Hle & Hall).
  exists v. split; [reflexivity|]. split.
  - destruct Hv as [->|Hv]; [left|now right].
  - constructor; assumption.
Qed.

Lemma fold_py_min_is_min z zs :
  exists v, fold_left py_min (map Int (z :: zs)) PosInf = Int v /\ is_min v (z :: zs).
Proof.
  simpl. change (py_min PosInf (Int z)) with (Int z).
  destruct (fold_py_min_ints zs z) as (v & -> & Hv & Hle & Hall).
  exists v. split; [reflexivity|]. split.
  - destruct Hv as [->|Hv]; [left|now right].
  - constructor; assumption.
Qed.

Lemma fold_left_scores {V} (f : V -> num -> V) (g : coord -> num) l :
  forall v, fold_left (fun v mv => f v (g mv)) l v = fold_left f (map g l) v.
Proof. induction l as [|a l IH]; intros v; simpl; [reflexivity|apply IH]. Qed.

Lemma map_Int_int_of (g : coord -> num) l :
  (forall m, in_range (g m)) ->
  map g l = map Int (map (fun m => int_of (g m)) l).
Proof.
  intros Hg. rewrite map_map. apply map_ext. intros m.
  now destruct (in_range_int_of _ (Hg m)).
Qed.

Lemma is_max_in_range (g : coord -> num) v l :
  (forall m, in_range (g m)) -> is_max v (map (fun m => int_of (g m)) l) -> -1 <= v <= 1.
Proof.
  intros Hg [Hin _]. apply list_elem_of_In, in_map_iff in Hin as (m & <- & _).
  now destruct (in_range_int_of _ (Hg m)).
Qed.

Lemma is_min_in_range (g : coord -> num) v l :
  (forall m, in_range (g m)) -> is_min v (map (fun m => int_of (g m)) l) -> -1 <= v <= 1.
Proof.
  intros Hg [Hin _]. apply list_elem_of_In, in_map_iff in Hin as (m & <- & _).
  now destruct (in_range_int_of _ (Hg m)).
Qed.

(** ** The value functions *)

(** One unfolding of each value function on a state with a move. *)
Lemma min_val_step n s :
  legal_moves s <> [] ->
  min_val (S n) s
  = fold_left py_min (map (fun mv => max_val n (apply_move s mv)) (legal_moves s)) PosInf.
Proof.
  intros Hne. simpl. destruct (legal_moves s); [contradiction|].
  apply (fold_left_scores py_min (fun mv => max_val n (apply_move s mv))).
Qed.

Lemma max_val_step n s :
  legal_moves s <> [] ->
  max_val (S n) s
  = fold_left py_max (map (fun mv => min_val n (apply_move s mv)) (legal_moves s)) NegInf.
Proof.
  intros Hne. simpl. destruct (legal_moves s); [contradiction|].
  apply (fold_left_scores py_max (fun mv => min_val n (apply_move s mv))).
Qed.

Lemma val_in_range n : forall s, in_range (min_val n s) /\ in_range (max_val n s).
Proof.
  induction n as [|n IH]; intros s.
  - simpl. destruct (legal_moves s); split; eexists; (split; [reflexivity|lia]).
  - destruct (legal_moves s) as [|m0 ms] eqn:Hmoves.
    + simpl. rewrite Hmoves. split; eexists; (split; [reflexivity|lia]).
    + assert (legal_moves s <> []) as Hne by (rewrite Hmoves; discriminate).
      rewrite min_val_step, max_val_step by assumption. rewrite Hmoves.
      split.
      * rewrite (map_Int_int_of (fun mv => max_val n (apply_move s mv)))
          by (intros m; apply IH).
        destruct (fold_py_min_is_min
                    (int_of (max_val n (apply_move s m0)))
                    (map (fun m => int_of (max_val n (apply_move s m))) ms))
          as (v & Hv & Hmin).
        simpl map at 2. rewrite Hv. exists v. split; [reflexivity|].
        eapply (is_min_in_range (fun mv => max_val n (apply_move s mv)) v (m0 :: ms));
          [intros m; apply IH|exact Hmin].
      * rewrite (map_Int_int_of (fun mv => min_val n (apply_move s mv)))
          by (intros m; apply IH).
        destruct (fold_py_max_is_max
                    (int_of (min_val n (apply_move s m0)))
                    (map (fun m => int_of (min_val n (apply_move s m))) ms))
          as (v & Hv & Hmax).
        simpl map at 2. rewrite Hv. exists v. split; [reflexivity|].
        eapply (is_max_in_range (fun mv => min_val n (apply_move s mv)) v (m0 :: ms));
          [intros m; apply IH|exact Hmax].
Qed.

(** ** The initial state *)

Lemma init_sim h :
  exists k self,
    __init__ h = (h ++ k, Ok self)
    /\ Owned (length h) (h ++ k) self initial_state.
Proof.
  set (n := length h).
  exists [IntList [0; 0]; IntList [0; 0]; IntList [0; 1];
          RefList [n; S n; S (S n)]; PosList [None; None];
          Instance (n + 3)%nat 0 (n + 4)%nat], (n + 5)%nat.
  assert (forall (k : heap) i, (h ++ k) !! (n + i)%nat = k !! i) as L
      by (intros; apply lookup_app_at).
  split.
  - unfold __init__.
    change (range xlim) with [0; 1; 2]. change (zeros ylim) with [0; 0].
    (* the comprehension *)
    match goal with
    | |- bind (foreach ?l ?body ?acc) _ _ = _ =>
        assert (foreach l body acc h
                = (h ++ [IntList [0; 0]; IntList [0; 0]; IntList [0; 0]],
                   Ok [n; S n; S (S n)])) as Hloop
    end.
    { cbn [foreach]. unfold alloc, bind, ret.
      rewrite !length_app. cbn [length]. fold n. rewrite <- !app_assoc. cbn [app].
      replace (n + 1 + 1)%nat with (S (S n)) by lia.
      replace (n + 1)%nat with (S n) by lia. reflexivity. }
    rewrite (bind_ok _ _ _ _ _ Hloop). clear Hloop.
    rewrite (bind_ok _ _ _ _ _ (alloc_at _ _)).
    rewrite length_app. cbn [length]. fold n. rewrite <- app_assoc. cbn [app].
    (* the corner *)
    set (k1 := [IntList [0; 0]; IntList [0; 0]; IntList [0; 0];
                RefList [n; S n; S (S n)]]).
    assert (setitem2 (n + 3) (-1) (-1) 1 (h ++ k1)
            = (h ++ <[2%nat := IntList [0; 1]]> k1, Ok tt)) as Hcorner.
    { unfold setitem2.
      rewrite (bind_ok _ _ _ _ _ (load_refs_at _ _ _ (L k1 3%nat))).
      rewrite (bind_ok _ _ (h ++ k1) (h ++ k1) (S (S n)) eq_refl).
      assert ((h ++ k1) !! S (S n) = Some (IntList [0; 0])) as E2
          by (replace (S (S n)) with (n + 2)%nat by lia; apply L).
      rewrite (bind_ok _ _ _ _ _ (load_ints_at _ _ _ E2)).
      rewrite (bind_ok _ _ (h ++ k1) (h ++ k1) [0; 1] eq_refl).
      rewrite (store_at _ _ _ _ E2).
      replace (S (S n)) with (length h + 2)%nat by (unfold n; lia).
      now rewrite insert_app_r. }
    rewrite (bind_ok _ _ _ _ _ Hcorner). clear Hcorner. subst k1. cbn [insert list_insert].
    (* the slots and the instance *)
    rewrite (bind_ok _ _ _ _ _ (alloc_at _ _)).
    rewrite alloc_at.
    rewrite !length_app. cbn [length]. fold n. rewrite <- !app_assoc. cbn [app].
    replace (n + 4 + 1)%nat with (n + 5)%nat by lia. reflexivity.
  - exists (n + 3)%nat, (n + 4)%nat, [n; S n; S (S n)].
    cbn [initial_state active board locations].
    rewrite (L _ 5%nat), (L _ 3%nat), (L _ 4%nat).
    repeat split; try reflexivity; try lia.
    + repeat constructor.
      * replace n with (n + 0)%nat at 1 by lia. now rewrite L.
      * replace (S n) with (n + 1)%nat by lia. now rewrite L.
      * replace (S (S n)) with (n + 2)%nat by lia. now rewrite L.
    + repeat (apply NoDup_cons; split; [rewrite ?elem_of_cons, elem_of_nil; lia|]).
      apply NoDup_nil_2.
    + repeat constructor; lia.
Qed.

(** ** Ray segments *)

Lemma ray_cell_shift x y d k :
  ray_cell (x + fst d) (y + snd d) d k = ray_cell x y d (S k).
Proof. unfold ray_cell. f_equal; lia. Qed.

Lemma ray_cell_1 x y d : ray_cell x y d 1 = (x + fst d, y + snd d).
Proof. unfold ray_cell. f_equal; lia. Qed.

Lemma not_open_blocked s c :
  shape_ok s = true -> on_board (fst c) (snd c) = true ->
  is_open (board s) c = false -> is_blocked (board s) c = true.
Proof.
  intros Hsh Hon. destruct (cell_on_board s _ _ Hsh Hon) as [v Hv].
  unfold is_open, is_blocked. rewrite Hv. now intros ->.
Qed.

Lemma walk_segment s d :
  shape_ok s = true ->
  forall fuel x y,
  exists n,
    (n <= fuel)%nat
    /\ walk fuel (board s) (fst d) (snd d) x y = map (ray_cell x y d) (seq 1 n)
    /\ (forall k, (1 <= k <= n)%nat ->
                  on_board (fst (ray_cell x y d k)) (snd (ray_cell x y d k)) = true
                  /\ is_open (board s) (ray_cell x y d k) = true)
    /\ ((n < fuel)%nat ->
        on_board (fst (ray_cell x y d (S n))) (snd (ray_cell x y d (S n))) = false
        \/ is_blocked (board s) (ray_cell x y d (S n)) = true).
Proof.
  intros Hsh. induction fuel as [|fuel IH]; intros x y.
  - exists 0%nat. repeat split; try reflexivity; lia.
  - cbn [walk].
    destruct (on_board (x + fst d) (y + snd d)) eqn:Hon;
      [destruct (is_open (board s) (x + fst d, y + snd d)) eqn:Hop|]; cbn [andb].
    + destruct (IH (x + fst d) (y + snd d)) as (n & Hn & Hw & Hin & Hstop).
      exists (S n). split; [lia|]. split; [|split].
      * rewrite Hw. cbn [seq map]. rewrite ray_cell_1. f_equal.
        rewrite <- (seq_shift n 1), map_map. apply map_ext. intros k. apply ray_cell_shift.
      * intros k Hk. destruct k as [|[|k]]; [lia| |].
        -- rewrite ray_cell_1. now split.
        -- rewrite <- ray_cell_shift. apply Hin. lia.
      * intros Hlt. rewrite <- ray_cell_shift. apply Hstop. lia.
    + exists 0%nat. repeat split; try reflexivity; try lia.
      intros _. right. rewrite ray_cell_1. now apply not_open_blocked.
    + exists 0%nat. repeat split; try reflexivity; try lia.
      intros _. left. now rewrite ray_cell_1.
Qed.

(** A ray has fewer than [ray_fuel] cells on the board, so the walk
    started by [get_legal_moves] always ends at a stop condition. *)
Lemma ray_short x y d :
  d ∈ rays ->
  on_board (fst (ray_cell x y d 1)) (snd (ray_cell x y d 1)) = true ->
  on_board (fst (ray_cell x y d ray_fuel)) (snd (ray_cell x y d ray_fuel)) = true ->
  False.
Proof.
  destruct d as [dx dy]. intros Hd H1 H2.
  apply rays_inv in Hd as (Hdx & Hdy & Hnz).
  apply on_board_inv in H1, H2. unfold ray_cell, ray_fuel, xlim, ylim in *. simpl in *.
  lia.
Qed.

Lemma walk_ray_segment s x0 y0 d :
  shape_ok s = true -> d ∈ rays ->
  ray_segment (board s) x0 y0 d (walk ray_fuel (board s) (fst d) (snd d) x0 y0).
Proof.
  intros Hsh Hd.
  destruct (walk_segment s d Hsh ray_fuel x0 y0) as (n & Hn & Hw & Hin & Hstop).
  exists n. repeat split; try assumption; try (now apply Hin).
  apply Hstop. destruct (decide (n = ray_fuel)) as [->|Hne]; [|lia].
  exfalso. apply (ray_short x0 y0 d Hd).
  - apply Hin. unfold ray_fuel. lia.
  - apply Hin. unfold ray_fuel. lia.
Qed.

Lemma legal_moves_placed s x0 y0 :
  shape_ok s = true ->
  locations s !! Z.to_nat (active s) = Some (Some (x0, y0)) ->
  exists segs,
    Forall2 (ray_segment (board s) x0 y0) rays segs
    /\ legal_moves s = concat segs.
Proof.
  intros Hsh Hloc.
  exists (map (fun d => walk ray_fuel (board s) (fst d) (snd d) x0 y0) rays). split.
  - apply Forall2_fmap_r, Forall_Forall2_diag, Forall_forall.
    intros d Hd. now apply walk_ray_segment.
  - unfold legal_moves. rewrite Hloc. apply flat_map_concat_map.
Qed.

Lemma legal_moves_unplaced s :
  locations s !! Z.to_nat (active s) = Some None ->
  legal_moves s = List.filter (is_open (board s)) row_major.
Proof. intros Hloc. unfold legal_moves. now rewrite Hloc. Qed.

(** ** Legal moves *)

(** C3. [get_legal_moves] on a well-formed instance returns, without
    changing the store: for an unplaced active player, the open cells
    of the board in row-major order (rows outer, columns inner); for a
    player placed at [(x0, y0)], the concatenation over the eight rays,
    in the order of [rays], of each ray's segment, the open on-board
    cells at distances 1..n where the next cell is off the board or
    blocked. *)
Theorem get_legal_moves_spec h self :
  well_formed h self = true ->
  exists s moves,
    read_state h self = Some s
    /\ get_legal_moves self h = (h, Ok moves)
    /\ rays = [(1, 0); (1, -1); (0, -1); (-1, -1); (-1, 0); (-1, 1); (0, 1); (1, 1)]
    /\ match locations s !! Z.to_nat (active s) with
       | Some None => moves = List.filter (is_open (board s)) row_major
       | Some (Some (x0, y0)) =>
           exists segs, Forall2 (ray_segment (board s) x0 y0) rays segs
                        /\ moves = concat segs
       | None => False
       end.
Proof.
  intros Hwf. destruct (well_formed_inv h self Hwf) as (s & Hread & HR & Hsh).
  exists s, (legal_moves s). split; [assumption|].
  split; [now apply get_legal_moves_sim|]. split; [reflexivity|].
  destruct (getitem_slot s Hsh) as (slot & Hslot & _). rewrite Hslot.
  destruct slot as [[x0 y0]|].
  - now apply legal_moves_placed.
  - now apply legal_moves_unplaced.
Qed.

Lemma get_legal_moves_spec_witness :
  well_formed store2 17%nat = true
  /\ exists s moves,
      read_state store2 17%nat = Some s
      /\ get_legal_moves 17%nat store2 = (store2, Ok moves)
      /\ rays = [(1, 0); (1, -1); (0, -1); (-1, -1); (-1, 0); (-1, 1); (0, 1); (1, 1)]
      /\ match locations s !! Z.to_nat (active s) with
         | Some None => moves = List.filter (is_open (board s)) row_major
         | Some (Some (x0, y0)) =>
             exists segs, Forall2 (ray_segment (board s) x0 y0) rays segs
                          /\ moves = concat segs
         | None => False
         end.
Proof.
  split; [reflexivity|]. apply (get_legal_moves_spec store2 17%nat). reflexivity.
Defined.

(** *** Cells after a move *)

Lemma cell_apply_move_same s mv v0 :
  cell (board s) (fst mv) (snd mv) = Some v0 ->
  cell (board (apply_move s mv)) (fst mv) (snd mv) = Some 1.
Proof.
  intros H. apply cell_nonneg in H as (Hx & Hy & H).
  rewrite cell_of_at by assumption. cbn [apply_move board].
  eapply cell_at_alter_same; eauto.
Qed.

(** Every other cell is unchanged by a move to a cell of the board. *)
Lemma cell_apply_move_other s mv x y :
  0 <= fst mv -> 0 <= snd mv -> (x, y) <> mv ->
  cell (board (apply_move s mv)) x y = cell (board s) x y.
Proof.
  intros Hmx Hmy Hne. unfold cell.
  destruct (Z.leb_spec 0 x); [|reflexivity].
  destruct (Z.leb_spec 0 y); [|reflexivity]. cbn [andb apply_move board].
  apply cell_at_alter_other. intros [= E1 E2]. apply Hne.
  destruct mv; simpl in *. f_equal; lia.
Qed.

Lemma is_blocked_apply_move s mv c :
  is_blocked (board s) c = true -> is_blocked (board (apply_move s mv)) c = true.
Proof.
  unfold is_blocked, cell.
  destruct ((0 <=? fst c) && (0 <=? snd c)); [|discriminate].
  cbn [apply_move board].
  destruct (decide ((Z.to_nat (fst c), Z.to_nat (snd c))
                    = (Z.to_nat (fst mv), Z.to_nat (snd mv)))) as [E|E].
  - injection E as -> ->.
    destruct (cell_at (board s) (Z.to_nat (fst mv)) (Z.to_nat (snd mv))) as [v|] eqn:Hv;
      [|discriminate].
    intros _. now rewrite (cell_at_alter_same _ _ _ 1 v Hv).
  - now rewrite cell_at_alter_other.
Qed.

Lemma lxor_1_other a : a = 0 \/ a = 1 -> Z.lxor a 1 = 1 - a.
Proof. intros [->| ->]; reflexivity. Qed.

Lemma prefix_of_app_eq (h h' : heap) : h `prefix_of` h' -> exists k, h' = h ++ k.
Proof. intros [k ->]. now exists k. Qed.

(** C4. For a well-formed instance and any move [mv] of its legal
    moves, [forecast_move] returns a new instance (a location that the
    old store does not have) in a store that extends the old one
    ([h ++ k]: every existing object is unchanged).
    In the child, the cell at [mv], open in the parent, is blocked and
    every other cell of the board is as in the parent; the slot of the
    player who moved holds [mv], the other slot is unchanged, and the
    other player is to move.  The parent still reads as the same state
    and has the same legal moves. *)
Theorem forecast_move_spec h self :
  well_formed h self = true ->
  exists s moves,
    read_state h self = Some s
    /\ get_legal_moves self h = (h, Ok moves)
    /\ forall mv, mv ∈ moves ->
       exists k child s',
         forecast_move self mv h = (h ++ k, Ok child)
         /\ (length h <= child)%nat
         /\ read_state (h ++ k) child = Some s'
         /\ well_formed (h ++ k) child = true
         /\ is_open (board s) mv = true
         /\ is_blocked (board s') mv = true
         /\ (forall c, on_board (fst c) (snd c) = true -> c <> mv ->
                       cell (board s') (fst c) (snd c) = cell (board s) (fst c) (snd c))
         /\ locations s' !! Z.to_nat (active s) = Some (Some mv)
         /\ (forall i, i <> Z.to_nat (active s) -> locations s' !! i = locations s !! i)
         /\ active s' = 1 - active s
         /\ read_state (h ++ k) self = Some s
         /\ get_legal_moves self (h ++ k) = (h ++ k, Ok moves).
Proof.
  intros Hwf. destruct (well_formed_inv h self Hwf) as (s & Hread & HR & Hsh).
  exists s, (legal_moves s). split; [assumption|].
  split; [now apply get_legal_moves_sim|].
  intros mv Hin.
  destruct (forecast_move_child h self s mv HR Hsh Hin) as (h' & child & Hf & Hp & HRc & Hshc).
  destruct (prefix_of_app_eq _ _ Hp) as [k ->].
  destruct (legal_moves_open s mv Hin) as [Hon Hop].
  pose proof (shape_ok_inv s Hsh) as (_ & _ & Hslots & Hact).
  exists k, child, (apply_move s mv).
  split; [assumption|].
  split; [exact (forecast_move_fresh _ _ _ _ _ _ HR Hsh Hin Hf)|].
  split; [now apply Rep_read_state|].
  split; [now apply (Rep_well_formed _ _ _ HRc)|]. split; [assumption|].
  split; [|split; [|split; [|split; [|split; [|split]]]]].
  - unfold is_open in Hop. unfold is_blocked.
    destruct (cell (board s) (fst mv) (snd mv)) as [v0|] eqn:Hv0; [|discriminate].
    now rewrite (cell_apply_move_same s mv v0 Hv0).
  - intros c Hc Hne. apply on_board_inv in Hon.
    apply cell_apply_move_other; try lia. now destruct c.
  - simpl. apply list_lookup_insert_eq. lia.
  - intros i Hi. simpl. now apply list_lookup_insert_ne.
  - simpl. now apply lxor_1_other.
  - apply Rep_read_state. now apply Rep_app.
  - apply get_legal_moves_sim; [now apply Rep_app|assumption].
Qed.

Lemma forecast_move_spec_witness :
  well_formed store0 5%nat = true
  /\ exists s moves,
      read_state store0 5%nat = Some s
      /\ get_legal_moves 5%nat store0 = (store0, Ok moves)
      /\ forall mv, mv ∈ moves ->
         exists k child s',
           forecast_move 5%nat mv store0 = (store0 ++ k, Ok child)
           /\ (length store0 <= child)%nat
           /\ read_state (store0 ++ k) child = Some s'
           /\ well_formed (store0 ++ k) child = true
           /\ is_open (board s) mv = true
           /\ is_blocked (board s') mv = true
           /\ (forall c, on_board (fst c) (snd c) = true -> c <> mv ->
                         cell (board s') (fst c) (snd c) = cell (board s) (fst c) (snd c))
           /\ locations s' !! Z.to_nat (active s) = Some (Some mv)
           /\ (forall i, i <> Z.to_nat (active s) -> locations s' !! i = locations s !! i)
           /\ active s' = 1 - active s
           /\ read_state (store0 ++ k) 5%nat = Some s
           /\ get_legal_moves 5%nat (store0 ++ k) = (store0 ++ k, Ok moves).
Proof.
  split; [reflexivity|]. apply (forecast_move_spec store0 5%nat). reflexivity.
Defined.

(** C5. On a well-formed instance [forecast_move] raises the
    illegal-move error exactly for the coordinates that are not among
    the legal moves; off-board coordinates and blocked cells are never
    among them.  When it raises, the store is the one it was given and
    the error skips the rest of any computation it is part of. *)
Theorem forecast_move_illegal_iff h self :
  well_formed h self = true ->
  exists s moves,
    read_state h self = Some s
    /\ get_legal_moves self h = (h, Ok moves)
    /\ forall mv : coord,
        (snd (forecast_move self mv h) = Raise illegal_move <-> mv ∉ moves)
        /\ (mv ∉ moves ->
            forecast_move self mv h = (h, Raise illegal_move)
            /\ forall (B : Type) (k : loc -> M B),
                bind (forecast_move self mv) k h = (h, Raise illegal_move))
        /\ (on_board (fst mv) (snd mv) = false -> mv ∉ moves)
        /\ (is_blocked (board s) mv = true -> mv ∉ moves).
Proof.
  intros Hwf. destruct (well_formed_inv h self Hwf) as (s & Hread & HR & Hsh).
  exists s, (legal_moves s). split; [assumption|].
  split; [now apply get_legal_moves_sim|].
  intros mv. split; [|split; [|split]].
  - split.
    + intros Hraise Hin.
      destruct (forecast_move_child h self s mv HR Hsh Hin) as (h' & child & Hf & _).
      rewrite Hf in Hraise. discriminate.
    + intros Hnot. now rewrite (forecast_move_illegal h self s mv HR Hsh Hnot).
  - intros Hnot. pose proof (forecast_move_illegal h self s mv HR Hsh Hnot) as Hf.
    split; [assumption|]. intros B k. now apply bind_raise.
  - intros Hoff Hin. destruct (legal_moves_open s mv Hin) as [Hon _]. congruence.
  - intros Hbl Hin. destruct (legal_moves_open s mv Hin) as [_ Hop].
    unfold is_blocked in Hbl. unfold is_open in Hop.
    destruct (cell (board s) (fst mv) (snd mv)); [|discriminate].
    destruct (z =? 0); discriminate.
Qed.

Lemma forecast_move_illegal_iff_witness :
  well_formed store1 11%nat = true
  /\ exists s moves,
      read_state store1 11%nat = Some s
      /\ get_legal_moves 11%nat store1 = (store1, Ok moves)
      /\ forall mv : coord,
          (snd (forecast_move 11%nat mv store1) = Raise illegal_move <-> mv ∉ moves)
          /\ (mv ∉ moves ->
              forecast_move 11%nat mv store1 = (store1, Raise illegal_move)
              /\ forall (B : Type) (k : loc -> M B),
                  bind (forecast_move 11%nat mv) k store1 = (store1, Raise illegal_move))
          /\ (on_board (fst mv) (snd mv) = false -> mv ∉ moves)
          /\ (is_blocked (board s) mv = true -> mv ∉ moves).
Proof.
  split; [reflexivity|]. apply (forecast_move_illegal_iff store1 11%nat). reflexivity.
Defined.

(** *** Values of children *)

Lemma min_value_sim h self s depth :
  Rep h self s -> shape_ok s = true ->
  exists h', min_value self depth h = (h', Ok (min_val (Z.to_nat depth) s))
             /\ h `prefix_of` h'.
Proof.
  intros HR Hsh. exact (proj1 (value_rec_sim _ h self s depth HR Hsh (Nat.le_refl _))).
Qed.

Lemma max_value_sim h self s depth :
  Rep h self s -> shape_ok s = true ->
  exists h', max_value self depth h = (h', Ok (max_val (Z.to_nat depth) s))
             /\ h `prefix_of` h'.
Proof.
  intros HR Hsh. exact (proj2 (value_rec_sim _ h self s depth HR Hsh (Nat.le_refl _))).
Qed.

Lemma child_value_min h self s mv depth :
  Rep h self s -> shape_ok s = true -> mv ∈ legal_moves s ->
  child_value min_value h self mv depth
              (int_of (min_val (Z.to_nat depth) (apply_move s mv))).
Proof.
  intros HR Hsh Hin.
  destruct (forecast_move_child h self s mv HR Hsh Hin) as (h1 & child & Hf & _ & HRc & Hshc).
  destruct (min_value_sim h1 child _ depth HRc Hshc) as (h2 & Hv & _).
  exists h2. rewrite (bind_ok _ _ _ _ _ Hf), Hv.
  now destruct (in_range_int_of _ (proj1 (val_in_range (Z.to_nat depth) (apply_move s mv))))
    as [<- _].
Qed.

Lemma child_value_max h self s mv depth :
  Rep h self s -> shape_ok s = true -> mv ∈ legal_moves s ->
  child_value max_value h self mv depth
              (int_of (max_val (Z.to_nat depth) (apply_move s mv))).
Proof.
  intros HR Hsh Hin.
  destruct (forecast_move_child h self s mv HR Hsh Hin) as (h1 & child & Hf & _ & HRc & Hshc).
  destruct (max_value_sim h1 child _ depth HRc Hshc) as (h2 & Hv & _).
  exists h2. rewrite (bind_ok _ _ _ _ _ Hf), Hv.
  now destruct (in_range_int_of _ (proj2 (val_in_range (Z.to_nat depth) (apply_move s mv))))
    as [<- _].
Qed.

(** The value functions, case by case. *)
Lemma max_val_cases s depth :
  exists v,
    max_val (Z.to_nat depth) s = Int v
    /\ match legal_moves s with
       | [] => v = -1
       | _ :: _ =>
           if depth <=? 0 then v = 0
           else is_max v (map (fun mv => int_of (min_val (Z.to_nat (depth - 1))
                                                         (apply_move s mv)))
                              (legal_moves s))
       end.
Proof.
  destruct (legal_moves s) as [|m0 ms] eqn:Hmoves.
  - exists (-1). destruct (Z.to_nat depth); simpl; now rewrite Hmoves.
  - destruct (Z.leb_spec depth 0) as [Hle|Hgt].
    + exists 0. replace (Z.to_nat depth) with 0%nat by lia. simpl. now rewrite Hmoves.
    + replace (Z.to_nat depth) with (S (Z.to_nat (depth - 1))) by lia.
      rewrite max_val_step by (rewrite Hmoves; discriminate). rewrite Hmoves.
      rewrite (map_Int_int_of (fun mv => min_val _ (apply_move s mv)))
        by (intros m; apply val_in_range).
      apply fold_py_max_is_max.
Qed.

Lemma min_val_cases s depth :
  exists v,
    min_val (Z.to_nat depth) s = Int v
    /\ match legal_moves s with
       | [] => v = 1
       | _ :: _ =>
           if depth <=? 0 then v = 0
           else is_min v (map (fun mv => int_of (max_val (Z.to_nat (depth - 1))
                                                         (apply_move s mv)))
                              (legal_moves s))
       end.
Proof.
  destruct (legal_moves s) as [|m0 ms] eqn:Hmoves.
  - exists 1. destruct (Z.to_nat depth); simpl; now rewrite Hmoves.
  - destruct (Z.leb_spec depth 0) as [Hle|Hgt].
    + exists 0. replace (Z.to_nat depth) with 0%nat by lia. simpl. now rewrite Hmoves.
    + replace (Z.to_nat depth) with (S (Z.to_nat (depth - 1))) by lia.
      rewrite min_val_step by (rewrite Hmoves; discriminate). rewrite Hmoves.
      rewrite (map_Int_int_of (fun mv => max_val _ (apply_move s mv)))
        by (intros m; apply val_in_range).
      apply fold_py_min_is_min.
Qed.

(** C2. On a well-formed instance, for every integer depth,
    [max_value] returns -1 when there is no legal move, else 0 when
    [depth <= 0], else the maximum over the legal moves [mv] of what
    [min_value] returns at [depth - 1] on the child forecast for [mv];
    [min_value] returns +1, 0, and the minimum of the [max_value]s of
    the children.  Both leave every object of the store they were
    given unchanged (the store they return is [h ++ k]). *)
Theorem min_max_value_spec h self depth :
  well_formed h self = true ->
  exists moves,
    get_legal_moves self h = (h, Ok moves)
    /\ (exists k v,
           max_value self depth h = (h ++ k, Ok (Int v))
           /\ match moves with
              | [] => v = -1
              | _ :: _ =>
                  if depth <=? 0 then v = 0
                  else exists score,
                      (forall mv, mv ∈ moves ->
                                  child_value min_value h self mv (depth - 1) (score mv))
                      /\ is_max v (map score moves)
              end)
    /\ (exists k v,
           min_value self depth h = (h ++ k, Ok (Int v))
           /\ match moves with
              | [] => v = 1
              | _ :: _ =>
                  if depth <=? 0 then v = 0
                  else exists score,
                      (forall mv, mv ∈ moves ->
                                  child_value max_value h self mv (depth - 1) (score mv))
                      /\ is_min v (map score moves)
              end).
Proof.
  intros Hwf. destruct (well_formed_inv h self Hwf) as (s & Hread & HR & Hsh).
  exists (legal_moves s). split; [now apply get_legal_moves_sim|]. split.
  - destruct (max_value_sim h self s depth HR Hsh) as (h' & Hv & Hp).
    destruct (prefix_of_app_eq _ _ Hp) as [k ->].
    destruct (max_val_cases s depth) as (v & Hval & Hcases).
    exists k, v. rewrite Hv, Hval. split; [reflexivity|].
    destruct (legal_moves s) as [|m0 ms] eqn:Hmoves; [assumption|].
    destruct (depth <=? 0); [assumption|].
    exists (fun mv => int_of (min_val (Z.to_nat (depth - 1)) (apply_move s mv))).
    split; [|assumption].
    intros mv Hin. apply child_value_min; try assumption. now rewrite Hmoves.
  - destruct (min_value_sim h self s depth HR Hsh) as (h' & Hv & Hp).
    destruct (prefix_of_app_eq _ _ Hp) as [k ->].
    destruct (min_val_cases s depth) as (v & Hval & Hcases).
    exists k, v. rewrite Hv, Hval. split; [reflexivity|].
    destruct (legal_moves s) as [|m0 ms] eqn:Hmoves; [assumption|].
    destruct (depth <=? 0); [assumption|].
    exists (fun mv => int_of (max_val (Z.to_nat (depth - 1)) (apply_move s mv))).
    split; [|assumption].
    intros mv Hin. apply child_value_max; try assumption. now rewrite Hmoves.
Qed.

Lemma min_max_value_spec_witness :
  well_formed store0 5%nat = true
  /\ exists moves,
      get_legal_moves 5%nat store0 = (store0, Ok moves)
      /\ (exists k v,
             max_value 5%nat 2 store0 = (store0 ++ k, Ok (Int v))
             /\ match moves with
                | [] => v = -1
                | _ :: _ =>
                    if 2 <=? 0 then v = 0
                    else exists score,
                        (forall mv, mv ∈ moves ->
                                    child_value min_value store0 5%nat mv (2 - 1) (score mv))
                        /\ is_max v (map score moves)
                end)
      /\ (exists k v,
             min_value 5%nat 2 store0 = (store0 ++ k, Ok (Int v))
             /\ match moves with
                | [] => v = 1
                | _ :: _ =>
                    if 2 <=? 0 then v = 0
                    else exists score,
                        (forall mv, mv ∈ moves ->
                                    child_value max_value store0 5%nat mv (2 - 1) (score mv))
                        /\ is_min v (map score moves)
                end).
Proof.
  split; [reflexivity|]. apply (min_max_value_spec store0 5%nat 2). reflexivity.
Defined.

(** C8. On a well-formed instance, for every integer depth,
    [min_value] and [max_value] each return an int among -1, 0 and 1,
    never one of the infinities the folds start from: an instance that
    is not terminal has a legal move for the fold to visit. *)
Theorem value_in_range h self depth :
  well_formed h self = true ->
  (exists h' v, min_value self depth h = (h', Ok (Int v)) /\ (v = -1 \/ v = 0 \/ v = 1))
  /\ (exists h' v, max_value self depth h = (h', Ok (Int v)) /\ (v = -1 \/ v = 0 \/ v = 1))
  /\ (terminal_test self h = (h, Ok false) ->
      exists mv moves, get_legal_moves self h = (h, Ok (mv :: moves))).
Proof.
  intros Hwf. destruct (well_formed_inv h self Hwf) as (s & Hread & HR & Hsh).
  destruct (val_in_range (Z.to_nat depth) s) as [(v1 & Hv1 & Hr1) (v2 & Hv2 & Hr2)].
  split; [|split].
  - destruct (min_value_sim h self s depth HR Hsh) as (h' & Hv & _).
    exists h', v1. rewrite Hv, Hv1. split; [reflexivity|lia].
  - destruct (max_value_sim h self s depth HR Hsh) as (h' & Hv & _).
    exists h', v2. rewrite Hv, Hv2. split; [reflexivity|lia].
  - rewrite (terminal_test_sim h self s HR Hsh).
    rewrite (get_legal_moves_sim h self s HR Hsh).
    destruct (legal_moves s) as [|mv moves]; [discriminate|]. eauto.
Qed.

Lemma value_in_range_witness :
  well_formed store1 11%nat = true
  /\ (exists h' v, min_value 11%nat 3 store1 = (h', Ok (Int v)) /\ (v = -1 \/ v = 0 \/ v = 1))
  /\ (exists h' v, max_value 11%nat 3 store1 = (h', Ok (Int v)) /\ (v = -1 \/ v = 0 \/ v = 1))
  /\ (terminal_test 11%nat store1 = (store1, Ok false) ->
      exists mv moves, get_legal_moves 11%nat store1 = (store1, Ok (mv :: moves))).
Proof.
  split; [reflexivity|]. apply (value_in_range store1 11%nat 3). reflexivity.
Defined.

(** *** The decision fold *)

Lemma num_ltb_ints (a b : num) :
  in_range a -> in_range b -> num_ltb a b = (int_of a <? int_of b).
Proof. intros (x & -> & _) (y & -> & _). reflexivity. Qed.

(** Folding [pick] from a best score [bs] either keeps the
    accumulator, when no score beats [bs], or ends on the first move
    whose score is the largest and beats [bs]. *)
Lemma pick_fold (g : coord -> num) :
  (forall m, in_range (g m)) ->
  forall l bs bm,
    bs = NegInf \/ in_range bs ->
    (fold_left (pick g) l (bs, bm) = (bs, bm)
     /\ Forall (fun x => num_ltb bs (g x) = false) l)
    \/ (exists pre m post,
           l = pre ++ m :: post
           /\ fold_left (pick g) l (bs, bm) = (g m, Some m)
           /\ num_ltb bs (g m) = true
           /\ Forall (fun x => int_of (g x) < int_of (g m)) pre
           /\ Forall (fun x => int_of (g x) <= int_of (g m)) post).
Proof.
  intros Hg. induction l as [|a l IH]; intros bs bm Hbs.
  - left. split; [reflexivity|constructor].
  - cbn [fold_left]. unfold pick at 2 4. cbn [fst].
    destruct (num_ltb bs (g a)) eqn:Ha.
    + right. destruct (IH (g a) (Some a) (or_intror (Hg a)))
        as [[Hr Hall]|(pre & m & post & -> & Hr & Hlt & Hpre & Hpost)].
      * exists [], a, l. repeat split; try assumption; [constructor|].
        eapply Forall_impl; [exact Hall|]. intros x Hx. simpl in Hx.
        rewrite (num_ltb_ints _ _ (Hg a) (Hg x)) in Hx. apply Z.ltb_ge in Hx. lia.
      * rewrite (num_ltb_ints _ _ (Hg a) (Hg m)) in Hlt. apply Z.ltb_lt in Hlt.
        exists (a :: pre), m, post. repeat split; try assumption.
        -- destruct Hbs as [->|Hbs].
           ++ now destruct (Hg m) as (z & -> & _).
           ++ rewrite (num_ltb_ints _ _ Hbs (Hg m)).
              rewrite (num_ltb_ints _ _ Hbs (Hg a)) in Ha.
              apply Z.ltb_lt in Ha. apply Z.ltb_lt. lia.
        -- constructor; assumption.
    + destruct (IH bs bm Hbs)
        as [[Hr Hall]|(pre & m & post & -> & Hr & Hlt & Hpre & Hpost)].
      * left. split; [assumption|]. constructor; assumption.
      * right. exists (a :: pre), m, post. repeat split; try assumption.
        constructor; [|assumption].
        destruct Hbs as [->|Hbs].
        -- destruct (Hg a) as (z & Hz & _). rewrite Hz in Ha. discriminate.
        -- rewrite (num_ltb_ints _ _ Hbs (Hg m)) in Hlt.
           rewrite (num_ltb_ints _ _ Hbs (Hg a)) in Ha.
           apply Z.ltb_lt in Hlt. apply Z.ltb_ge in Ha. lia.
Qed.

Lemma minimax_decision_sim h self s depth :
  Rep h self s -> shape_ok s = true ->
  exists h',
    minimax_decision self depth h
    = (h', Ok (snd (fold_left
                      (pick (fun mv => min_val (Z.to_nat (depth - 1)) (apply_move s mv)))
                      (legal_moves s) (NegInf, None))))
    /\ h `prefix_of` h'.
Proof.
  intros HR Hsh. unfold minimax_decision.
  rewrite (bind_ok _ _ _ _ _ (get_legal_moves_sim _ _ _ HR Hsh)).
  destruct (foreach_children self s
              (fun child => min_value child (depth - 1))
              (min_val (Z.to_nat (depth - 1)))
              (fun (acc : num * option coord) m v =>
                 if num_ltb (fst acc) v then (v, Some m) else acc)
              (fun m '(best_score, best_move) =>
                 let* child := forecast_move self m in
                 let* v := min_value child (depth - 1) in
                 if num_ltb best_score v then ret (v, Some m)
                 else ret (best_score, best_move))
              Hsh) with (l := legal_moves s) (h := h) (v := (NegInf, @None coord))
    as (h' & Hloop & Hp).
  - intros h1 child s' HRc Hshc. now apply min_value_sim.
  - intros mv [bs bm] h1. unfold bind.
    destruct (forecast_move self mv h1) as [h2 [child| |]]; try reflexivity.
    destruct (min_value child (depth - 1) h2) as [h3 [w| |]]; try reflexivity.
    cbn [fst]. now destruct (num_ltb bs w).
  - apply Forall_elem_of_self.
  - assumption.
  - exists h'. split; [|assumption].
    rewrite (bind_ok _ _ _ _ _ Hloop).
    now destruct (fold_left _ (legal_moves s) (NegInf, None)).
Qed.

(** C1. On a well-formed instance, for every depth,
    [minimax_decision] returns "no move" when there is no legal move,
    and otherwise the first legal move, in the order of
    [get_legal_moves], whose score is the largest, where the score of
    a move is what [min_value] returns at [depth - 1] on the child
    forecast for it: every move before it scores strictly less and
    every move after it scores at most as much. *)
Theorem minimax_decision_spec h self depth :
  well_formed h self = true ->
  exists moves,
    get_legal_moves self h = (h, Ok moves)
    /\ match moves with
       | [] => minimax_decision self depth h = (h, Ok None)
       | _ :: _ =>
           exists k pre m post score,
             minimax_decision self depth h = (h ++ k, Ok (Some m))
             /\ moves = pre ++ m :: post
             /\ (forall mv, mv ∈ moves ->
                            child_value min_value h self mv (depth - 1) (score mv))
             /\ Forall (fun x => score x < score m) pre
             /\ Forall (fun x => score x <= score m) post
       end.
Proof.
  intros Hwf. destruct (well_formed_inv h self Hwf) as (s & Hread & HR & Hsh).
  exists (legal_moves s). split; [now apply get_legal_moves_sim|].
  destruct (minimax_decision_sim h self s depth HR Hsh) as (h' & Hd & Hp).
  destruct (legal_moves s) as [|m0 ms] eqn:Hmoves.
  - unfold minimax_decision.
    rewrite (bind_ok _ _ _ _ _ (get_legal_moves_sim _ _ _ HR Hsh)).
    now rewrite Hmoves.
  - destruct (prefix_of_app_eq _ _ Hp) as [k ->].
    set (g := fun mv => min_val (Z.to_nat (depth - 1)) (apply_move s mv)) in *.
    assert (forall m, in_range (g m)) as Hg by (intros m; apply val_in_range).
    destruct (pick_fold g Hg (m0 :: ms) NegInf None (or_introl eq_refl))
      as [[_ Hall]|(pre & m & post & Hsplit & Hr & _ & Hpre & Hpost)].
    + apply Forall_cons in Hall as [H0 _].
      destruct (Hg m0) as (z & Hz & _). rewrite Hz in H0. discriminate.
    + exists k, pre, m, post, (fun mv => int_of (g mv)).
      rewrite Hd, Hr. repeat split; try assumption.
      intros mv Hin. apply child_value_min; try assumption. now rewrite Hmoves.
Qed.

Lemma minimax_decision_spec_witness :
  well_formed store0 5%nat = true
  /\ exists moves,
      get_legal_moves 5%nat store0 = (store0, Ok moves)
      /\ match moves with
         | [] => minimax_decision 5%nat 3 store0 = (store0, Ok None)
         | _ :: _ =>
             exists k pre m post score,
               minimax_decision 5%nat 3 store0 = (store0 ++ k, Ok (Some m))
               /\ moves = pre ++ m :: post
               /\ (forall mv, mv ∈ moves ->
                              child_value min_value store0 5%nat mv (3 - 1) (score mv))
               /\ Forall (fun x => score x < score m) pre
               /\ Forall (fun x => score x <= score m) post
         end.
Proof.
  split; [reflexivity|]. apply (minimax_decision_spec store0 5%nat 3). reflexivity.
Defined.

(** *** The 3x2 scenario *)

(** C6, as the program runs it.  In any store, [GameState()] followed
    by [get_legal_moves] returns (0,0),(1,0),(2,0),(0,1),(1,1);
    [forecast_move((0,0))] then yields a state with player 0 at (0,0),
    cells (0,0) and (2,1) blocked and player 1 to move; and, player 1
    being still unplaced, [get_legal_moves] on that state returns the
    four open cells in row-major order, (1,0),(2,0),(0,1),(1,1). *)
Theorem scenario_3x2 (h : heap) :
  exists k0 root k1 child,
    __init__ h = (h ++ k0, Ok root)
    /\ get_legal_moves root (h ++ k0)
       = (h ++ k0, Ok [(0, 0); (1, 0); (2, 0); (0, 1); (1, 1)])
    /\ forecast_move root (0, 0) (h ++ k0) = ((h ++ k0) ++ k1, Ok child)
    /\ read_state ((h ++ k0) ++ k1) child = Some after_first_move
    /\ List.filter (is_blocked (board after_first_move)) row_major = [(0, 0); (2, 1)]
    /\ get_legal_moves child ((h ++ k0) ++ k1)
       = ((h ++ k0) ++ k1, Ok [(1, 0); (2, 0); (0, 1); (1, 1)]).
Proof.
  destruct (init_sim h) as (k0 & root & Hnew & Hown).
  apply Owned_Rep in Hown.
  assert (shape_ok initial_state = true) as Hsh by reflexivity.
  assert ((0, 0) ∈ legal_moves initial_state) as Hin by (vm_compute; left).
  destruct (forecast_move_child _ root _ (0, 0) Hown Hsh Hin)
    as (h1 & child & Hf & Hp & HRc & Hshc).
  destruct (prefix_of_app_eq _ _ Hp) as [k1 ->].
  exists k0, root, k1, child. split; [assumption|].
  split; [exact (get_legal_moves_sim _ _ _ Hown Hsh)|].
  split; [assumption|].
  split; [exact (Rep_read_state _ _ _ HRc)|].
  split; [reflexivity|].
  exact (get_legal_moves_sim _ _ _ HRc Hshc).
Qed.

(** C6, as stated: the sequence (1,0),(2,0),(1,1),(0,1) is not what
    the program returns for the state after the first move. *)
Lemma scenario_3x2_ray_order_fails :
  snd ((let* root := __init__ in
        let* child := forecast_move root (0, 0) in
        get_legal_moves child) [])
  <> Ok [(1, 0); (2, 0); (1, 1); (0, 1)].
Proof. vm_compute. discriminate. Qed.

(** ** Invariants along a line of play *)

Lemma play_from_sim :
  forall ms h self s h' states,
    Rep h self s -> shape_ok s = true ->
    play_from self ms h = (h', Ok states) ->
    h `prefix_of` h' /\ Forall2 (Rep h') states (line s ms) /\ legal_line s ms.
Proof.
  induction ms as [|m ms IH]; intros h self s h' states HR Hsh Hplay.
  - injection Hplay as <- <-. repeat split; [reflexivity|]. repeat constructor. assumption.
  - cbn [play_from] in Hplay.
    destruct (decide (m ∈ legal_moves s)) as [Hin|Hnot].
    + destruct (forecast_move_child h self s m HR Hsh Hin) as (h1 & child & Hf & Hp & HRc & Hshc).
      rewrite (bind_ok _ _ _ _ _ Hf) in Hplay. unfold bind in Hplay.
      destruct (play_from child ms h1) as [h2 [rest| |]] eqn:Hrest; try discriminate.
      injection Hplay as <- <-.
      destruct (IH h1 child _ h2 rest HRc Hshc Hrest) as (Hp2 & Hall & Hlegal).
      assert (h `prefix_of` h2) as Hp' by (etransitivity; eauto).
      repeat split; try assumption.
      cbn [line]. constructor; [|assumption]. eapply Rep_prefix; eauto.
    + rewrite (bind_raise _ _ _ _ _ (forecast_move_illegal h self s m HR Hsh Hnot)) in Hplay.
      discriminate.
Qed.

Lemma players_blocked_apply_move s m :
  m ∈ legal_moves s -> players_blocked s -> players_blocked (apply_move s m).
Proof.
  intros Hin Hinv p pos Hp. simpl in Hp.
  destruct (legal_moves_open s m Hin) as [_ Hop]. unfold is_open in Hop.
  destruct (cell (board s) (fst m) (snd m)) as [v0|] eqn:Hv0; [|discriminate].
  rewrite list_lookup_insert in Hp.
  destruct (decide (Z.to_nat (active s) = p ∧ (Z.to_nat (active s) < length (locations s))%nat)).
  - injection Hp as <-. unfold is_blocked.
    now rewrite (cell_apply_move_same s m v0 Hv0).
  - apply is_blocked_apply_move. eapply Hinv; eauto.
Qed.

Lemma line_invariants :
  forall ms s,
    shape_ok s = true -> players_blocked s -> legal_line s ms ->
    forall j st,
      line s ms !! j = Some st ->
      players_blocked st
      /\ (forall i m, (i < j)%nat -> ms !! i = Some m -> is_blocked (board st) m = true)
      /\ (forall i st', (i <= j)%nat -> line s ms !! i = Some st' ->
                        forall c, is_blocked (board st') c = true ->
                                  is_blocked (board st) c = true).
Proof.
  induction ms as [|m ms IH]; intros s Hsh Hinv Hlegal j st Hj.
  - destruct j as [|j]; [|discriminate]. injection Hj as <-.
    split; [assumption|]. split; [intros; lia|].
    intros i st' Hi Hst'. replace i with 0%nat in Hst' by lia.
    injection Hst' as <-. auto.
  - destruct Hlegal as [Hin Hlegal].
    destruct j as [|j].
    + injection Hj as <-. split; [assumption|]. split; [intros; lia|].
      intros i st' Hi Hst'. replace i with 0%nat in Hst' by lia.
      injection Hst' as <-. auto.
    + cbn [line] in Hj. change ((?a :: ?l) !! S j) with (l !! j) in Hj.
      pose proof (shape_ok_apply_move s m Hsh) as Hsh1.
      pose proof (players_blocked_apply_move s m Hin Hinv) as Hinv1.
      destruct (IH _ Hsh1 Hinv1 Hlegal j st Hj) as (Hpb & Hocc & Hmono).
      assert (forall c, is_blocked (board (apply_move s m)) c = true ->
                        is_blocked (board st) c = true) as Hfirst.
      { apply (Hmono 0%nat); [lia|]. now destruct ms. }
      split; [assumption|]. split.
      * intros i m' Hi Hm'. destruct i as [|i].
        -- injection Hm' as <-. apply Hfirst.
           destruct (legal_moves_open s m Hin) as [_ Hop]. unfold is_open in Hop.
           destruct (cell (board s) (fst m) (snd m)) as [v0|] eqn:Hv0; [|discriminate].
           unfold is_blocked. now rewrite (cell_apply_move_same s m v0 Hv0).
        -- apply (Hocc i); [lia|assumption].
      * intros i st' Hi Hst' c Hc. destruct i as [|i].
        -- injection Hst' as <-. apply Hfirst. now apply is_blocked_apply_move.
        -- cbn [line] in Hst'. change ((?a :: ?l) !! S i) with (l !! i) in Hst'.
           apply (Hmono i st'); [lia|assumption|assumption].
Qed.

Lemma players_blocked_initial : players_blocked initial_state.
Proof. intros [|[|p]] pos H; discriminate. Qed.

Lemma line_shape_ok ms :
  forall s, shape_ok s = true -> Forall (fun st => shape_ok st = true) (line s ms).
Proof.
  induction ms as [|m ms IH]; intros s Hsh; cbn [line].
  - repeat constructor. assumption.
  - constructor; [assumption|]. apply IH. now apply shape_ok_apply_move.
Qed.

(** Every state of a line of play is a well-formed instance of the
    final store: the hypothesis of the theorems on single states holds
    wherever the program can get. *)
Lemma line_of_play_well_formed (h0 : heap) ms h states :
  play ms h0 = (h, Ok states) -> Forall (fun l => well_formed h l = true) states.
Proof.
  intros Hplay. unfold play in Hplay.
  destruct (init_sim h0) as (k0 & root & Hnew & Hown).
  apply Owned_Rep in Hown.
  rewrite (bind_ok _ _ _ _ _ Hnew) in Hplay.
  assert (shape_ok initial_state = true) as Hsh by reflexivity.
  destruct (play_from_sim ms _ root _ h states Hown Hsh Hplay) as (_ & Hall & _).
  pose proof (line_shape_ok ms _ Hsh) as Hshapes.
  clear Hplay. induction Hall as [|l st ls sts' HR _ IH]; [constructor|].
  apply Forall_cons in Hshapes as [Hst Hshapes].
  constructor; [exact (Rep_well_formed _ _ _ HR Hst)|exact (IH Hshapes)].
Qed.

(** C7. Along any line of play, all states of the line are still
    readable in the final store, and for each of them: every placed
    player stands on a blocked cell; every cell moved to earlier in
    the line is blocked; and every cell blocked in an earlier state of
    the line is blocked. *)
Theorem line_of_play_blocked (h0 : heap) ms h states :
  play ms h0 = (h, Ok states) ->
  exists sts,
    Forall2 (fun l st => read_state h l = Some st) states sts
    /\ length sts = S (length ms)
    /\ forall j st,
        sts !! j = Some st ->
        (forall p pos, locations st !! p = Some (Some pos) ->
                       is_blocked (board st) pos = true)
        /\ (forall i m, (i < j)%nat -> ms !! i = Some m ->
                        is_blocked (board st) m = true)
        /\ (forall i st', (i <= j)%nat -> sts !! i = Some st' ->
                          forall c, is_blocked (board st') c = true ->
                                    is_blocked (board st) c = true).
Proof.
  intros Hplay. unfold play in Hplay.
  destruct (init_sim h0) as (k0 & root & Hnew & Hown).
  apply Owned_Rep in Hown.
  rewrite (bind_ok _ _ _ _ _ Hnew) in Hplay.
  assert (shape_ok initial_state = true) as Hsh by reflexivity.
  destruct (play_from_sim ms _ root _ h states Hown Hsh Hplay) as (_ & Hall & Hlegal).
  exists (line initial_state ms). split; [|split].
  - eapply Forall2_impl; [exact Hall|]. intros l st. apply Rep_read_state.
  - clear. generalize initial_state. induction ms as [|m ms IH]; intros s; [reflexivity|].
    cbn [line length]. now rewrite IH.
  - intros j st Hj.
    exact (line_invariants ms _ Hsh players_blocked_initial Hlegal j st Hj).
Qed.

Lemma line_of_play_blocked_witness :
  play [(0, 0); (1, 1)] [] = (store2, Ok [5; 11; 17]%nat)
  /\ exists sts,
      Forall2 (fun l st => read_state store2 l = Some st) [5; 11; 17]%nat sts
      /\ length sts = S (length [(0, 0); (1, 1)])
      /\ forall j st,
          sts !! j = Some st ->
          (forall p pos, locations st !! p = Some (Some pos) ->
                         is_blocked (board st) pos = true)
          /\ (forall i m, (i < j)%nat -> [(0, 0); (1, 1)] !! i = Some m ->
                          is_blocked (board st) m = true)
          /\ (forall i st', (i <= j)%nat -> sts !! i = Some st' ->
                            forall c, is_blocked (board st') c = true ->
                                      is_blocked (board st) c = true).
Proof.
  split; [reflexivity|].
  apply (line_of_play_blocked [] [(0, 0); (1, 1)] store2 [5; 11; 17]%nat). reflexivity.
Defined.

(** ** Termination of the loops and of the recursion *)

Lemma terminates_ret {A} (a : A) : terminates (ret a).
Proof. intros h. discriminate. Qed.

Lemma terminates_raise {A} e : terminates (@raise A e).
Proof. intros h. discriminate. Qed.

Lemma terminates_bind {A B} (m : M A) (k : A -> M B) :
  terminates m -> (forall a, terminates (k a)) -> terminates (bind m k).
Proof.
  intros Hm Hk h. unfold bind. specialize (Hm h).
  destruct (m h) as [h' [a| |]]; simpl in *; [apply Hk|discriminate|contradiction].
Qed.

Lemma terminates_foreach {A S} (l : list A) (body : A -> S -> M S) :
  (forall a s, terminates (body a s)) -> forall s, terminates (foreach l body s).
Proof.
  intros Hbody. induction l as [|a l IH]; intros s; simpl.
  - apply terminates_ret.
  - apply terminates_bind; auto.
Qed.

Lemma terminates_alloc o : terminates (alloc o).
Proof. intros h. discriminate. Qed.

Lemma terminates_load l : terminates (load l).
Proof. intros h. unfold load. destruct (h !! l); discriminate. Qed.

Lemma terminates_store l o : terminates (store l o).
Proof. intros h. unfold store. destruct (h !! l); discriminate. Qed.

Lemma terminates_getitem {A} (l : list A) i : terminates (getitem l i).
Proof.
  intros h. unfold getitem. destruct (py_index (length l) i) as [k|]; [|discriminate].
  destruct (l !! k); discriminate.
Qed.

Lemma terminates_setitem {A} (l : list A) i a : terminates (setitem l i a).
Proof. intros h. unfold setitem. destruct (py_index (length l) i); discriminate. Qed.

Create HintDb terminates.
#[local] Hint Resolve terminates_alloc terminates_load terminates_store
  terminates_getitem terminates_setitem : terminates.

(** Walks through the structure of a computation built from [bind],
    [foreach], matches and conditionals. *)
Ltac terminates_steps :=
  repeat first
    [ solve [eauto with terminates]
    | apply terminates_ret
    | apply terminates_raise
    | apply terminates_bind; [|intros]
    | apply terminates_foreach; intros
    | match goal with
      | |- terminates (match ?x with _ => _ end) => destruct x
      end ].

Lemma terminates_load_ints l : terminates (load_ints l).
Proof. unfold load_ints. terminates_steps. Qed.
Lemma terminates_load_refs l : terminates (load_refs l).
Proof. unfold load_refs. terminates_steps. Qed.
Lemma terminates_load_slots l : terminates (load_slots l).
Proof. unfold load_slots. terminates_steps. Qed.
Lemma terminates_load_instance l : terminates (load_instance l).
Proof. unfold load_instance. terminates_steps. Qed.
#[local] Hint Resolve terminates_load_ints terminates_load_refs
  terminates_load_slots terminates_load_instance : terminates.

Lemma terminates_attr_board l : terminates (attr_board l).
Proof. unfold attr_board. terminates_steps. Qed.
Lemma terminates_attr_active_player l : terminates (attr_active_player l).
Proof. unfold attr_active_player. terminates_steps. Qed.
Lemma terminates_attr_player_locations l : terminates (attr_player_locations l).
Proof. unfold attr_player_locations. terminates_steps. Qed.
#[local] Hint Resolve terminates_attr_board terminates_attr_active_player
  terminates_attr_player_locations : terminates.

Lemma terminates_board_cell self x y : terminates (board_cell self x y).
Proof. unfold board_cell, getitem2. terminates_steps. Qed.
Lemma terminates_set_board_cell g x y v : terminates (set_board_cell g x y v).
Proof. unfold set_board_cell, setitem2. terminates_steps. Qed.
#[local] Hint Resolve terminates_board_cell terminates_set_board_cell : terminates.

Lemma terminates__get_blank_spaces self : terminates (_get_blank_spaces self).
Proof. unfold _get_blank_spaces. terminates_steps. Qed.

(** The walk never outruns its counter, whatever the store holds. *)
Lemma terminates_ray_while self dx dy :
  (dx, dy) ∈ rays ->
  forall fuel x y moves,
    (1 <= fuel)%nat ->
    (on_board (x + dx) (y + dy) = true -> ray_room dx dy x y <= Z.of_nat fuel) ->
    terminates (ray_while fuel self dx dy x y moves).
Proof.
  intros Hd. induction fuel as [|fuel IH]; intros x y moves H1 Hroom; [lia|].
  cbn [ray_while]. fold (on_board (x + dx) (y + dy)).
  destruct (on_board (x + dx) (y + dy)) eqn:Hon; [|apply terminates_ret].
  destruct (ray_room_step dx dy x y Hd Hon) as [Hr Hr'].
  specialize (Hroom eq_refl).
  apply terminates_bind; [apply terminates_board_cell|]. intros c.
  destruct (negb (c =? 0)); [apply terminates_ret|].
  apply IH; [lia|]. intros _. lia.
Qed.

Lemma terminates_get_legal_moves self : terminates (get_legal_moves self).
Proof.
  unfold get_legal_moves.
  apply terminates_bind; [auto with terminates|]. intros ap.
  apply terminates_bind; [auto with terminates|]. intros p.
  apply terminates_bind; [auto with terminates|]. intros slots.
  apply terminates_bind; [auto with terminates|]. intros [[x0 y0]|].
  - intros h. revert h. change (terminates (foreach rays
        (fun '(dx, dy) moves => ray_while ray_fuel self dx dy x0 y0 moves) [])).
    assert (forall l, (forall d, d ∈ l -> d ∈ rays) ->
                      forall acc, terminates (foreach l
        (fun '(dx, dy) moves => ray_while ray_fuel self dx dy x0 y0 moves) acc)) as H.
    { induction l as [|[dx dy] l IH]; intros Hl acc; cbn [foreach]; [apply terminates_ret|].
      apply terminates_bind.
      - apply terminates_ray_while; [apply Hl; left|unfold ray_fuel; lia|].
        intros Hon. destruct (ray_room_step dx dy x0 y0 (Hl _ ltac:(left)) Hon) as [Hr _].
        unfold ray_fuel. lia.
      - intros acc'. apply IH. intros d Hd'. apply Hl. now right. }
    apply H. auto.
  - apply terminates__get_blank_spaces.
Qed.
#[local] Hint Resolve terminates_get_legal_moves : terminates.

Lemma terminates_deepcopy_columns columns :
  forall memo, terminates (deepcopy_columns columns memo).
Proof.
  induction columns as [|c rest IH]; intros memo; simpl; [apply terminates_ret|].
  destruct (memo_lookup memo c); terminates_steps; apply IH.
Qed.
#[local] Hint Resolve terminates_deepcopy_columns : terminates.

Lemma terminates_deepcopy self : terminates (deepcopy self).
Proof. unfold deepcopy. terminates_steps. Qed.
#[local] Hint Resolve terminates_deepcopy : terminates.

Lemma terminates_forecast_move self mv : terminates (forecast_move self mv).
Proof.
  unfold forecast_move.
  apply terminates_bind; [auto with terminates|]. intros legal.
  destruct (negb (existsb (move_eqb mv) legal)); terminates_steps.
Qed.

Lemma terminates_terminal_test self : terminates (terminal_test self).
Proof. unfold terminal_test. terminates_steps. Qed.
#[local] Hint Resolve terminates_forecast_move terminates_terminal_test : terminates.

Lemma terminates_value_rec :
  forall fuel self depth,
    (Z.to_nat depth <= fuel)%nat ->
    terminates (min_value_rec fuel self depth)
    /\ terminates (max_value_rec fuel self depth).
Proof.
  induction fuel as [|fuel IH]; intros self depth Hfuel.
  - assert ((depth <=? 0) = true) as Hle by (apply Z.leb_le; lia).
    cbn [min_value_rec max_value_rec]. rewrite Hle.
    split; apply terminates_bind; auto with terminates; intros [|]; apply terminates_ret.
  - cbn [min_value_rec max_value_rec].
    destruct (Z.leb_spec depth 0) as [Hle|Hgt].
    + split; apply terminates_bind; auto with terminates; intros [|]; apply terminates_ret.
    + assert (Z.to_nat (depth - 1) <= fuel)%nat as Hfuel' by lia.
      split; (apply terminates_bind; [auto with terminates|]; intros [|];
              [apply terminates_ret|]);
        (apply terminates_bind; [auto with terminates|]; intros moves);
        apply terminates_foreach; intros mv v;
        (apply terminates_bind; [auto with terminates|]; intros child);
        (apply terminates_bind; [apply IH; assumption|]; intros w);
        apply terminates_ret.
Qed.

Lemma terminates_min_value self depth : terminates (min_value self depth).
Proof. apply terminates_value_rec. reflexivity. Qed.

Lemma terminates_max_value self depth : terminates (max_value self depth).
Proof. apply terminates_value_rec. reflexivity. Qed.

Lemma terminates_minimax_decision self depth : terminates (minimax_decision self depth).
Proof.
  unfold minimax_decision.
  apply terminates_bind; [auto with terminates|]. intros moves.
  apply terminates_bind; [|intros [bs bm]; apply terminates_ret].
  apply terminates_foreach. intros m [bs bm].
  apply terminates_bind; [auto with terminates|]. intros child.
  apply terminates_bind; [apply terminates_min_value|]. intros v.
  destruct (num_ltb bs v); apply terminates_ret.
Qed.

Lemma bind_ext {A B} (m : M A) (k1 k2 : A -> M B) h :
  (forall a h', k1 a h' = k2 a h') -> bind m k1 h = bind m k2 h.
Proof.
  intros Hk. unfold bind. destruct (m h) as [h' [a| |]]; [apply Hk|reflexivity|reflexivity].
Qed.

Lemma foreach_ext {A S} (l : list A) (b1 b2 : A -> S -> M S) :
  (forall a s h, b1 a s h = b2 a s h) ->
  forall s h, foreach l b1 s h = foreach l b2 s h.
Proof.
  intros Hb. induction l as [|a l IH]; intros s h; simpl; [reflexivity|].
  unfold bind. rewrite Hb. destruct (b2 a s h) as [h' [s'| |]]; [apply IH|reflexivity|reflexivity].
Qed.

(** Any counter at least the depth gives the same run: the depth alone
    bounds the recursion. *)
Lemma value_rec_fuel :
  forall fuel fuel' self depth h,
    (Z.to_nat depth <= fuel)%nat -> (Z.to_nat depth <= fuel')%nat ->
    min_value_rec fuel self depth h = min_value_rec fuel' self depth h
    /\ max_value_rec fuel self depth h = max_value_rec fuel' self depth h.
Proof.
  induction fuel as [|fuel IH]; intros fuel' self depth h Hf Hf'.
  - assert ((depth <=? 0) = true) as Hle by (apply Z.leb_le; lia).
    destruct fuel'; cbn [min_value_rec max_value_rec]; rewrite Hle;
      split; apply bind_ext; intros [|] h'; reflexivity.
  - destruct (Z.leb_spec depth 0) as [Hle|Hgt].
    + apply Z.leb_le in Hle.
      destruct fuel'; cbn [min_value_rec max_value_rec]; rewrite Hle;
        split; apply bind_ext; intros [|] h'; reflexivity.
    + destruct fuel' as [|fuel']; [lia|].
      assert (Z.to_nat (depth - 1) <= fuel)%nat as H1 by lia.
      assert (Z.to_nat (depth - 1) <= fuel')%nat as H2 by lia.
      cbn [min_value_rec max_value_rec].
      split; apply bind_ext; intros [|] h1; try reflexivity;
        destruct (depth <=? 0); try reflexivity;
        apply bind_ext; intros moves h2; apply foreach_ext; intros mv v h3;
        apply bind_ext; intros child h4; unfold bind.
      * now rewrite (proj2 (IH fuel' child (depth - 1) h4 H1 H2)).
      * now rewrite (proj1 (IH fuel' child (depth - 1) h4 H1 H2)).
Qed.

(** C9. In every store, for every instance and every integer depth:
    [min_value] and [max_value] are the source's recursion (the
    terminal test first, then the test [depth <= 0] returning 0, then
    the loop whose recursive calls are at [depth - 1]); neither they
    nor [minimax_decision] ever exhaust their counter; and any counter
    at least [depth] gives the same run, so that the depth is the only
    bound. *)
Theorem search_terminates self depth h :
  min_value self depth h
  = (let* t := terminal_test self in
     if t then ret (Int 1)
     else if depth <=? 0 then ret (Int 0)
     else
       let* moves := get_legal_moves self in
       foreach moves
         (fun mv v =>
            let* child := forecast_move self mv in
            let* w := max_value child (depth - 1) in
            ret (py_min v w))
         PosInf) h
  /\ max_value self depth h
     = (let* t := terminal_test self in
        if t then ret (Int (-1))
        else if depth <=? 0 then ret (Int 0)
        else
          let* moves := get_legal_moves self in
          foreach moves
            (fun mv v =>
               let* child := forecast_move self mv in
               let* w := min_value child (depth - 1) in
               ret (py_max v w))
            NegInf) h
  /\ snd (min_value self depth h) <> OutOfFuel
  /\ snd (max_value self depth h) <> OutOfFuel
  /\ snd (minimax_decision self depth h) <> OutOfFuel
  /\ forall fuel,
      (Z.to_nat depth <= fuel)%nat ->
      min_value_rec fuel self depth h = min_value self depth h
      /\ max_value_rec fuel self depth h = max_value self depth h.
Proof.
  split; [|split; [|split; [|split; [|split]]]].
  - unfold min_value. destruct (Z.le_gt_cases depth 0) as [Hle|Hgt].
    + replace (Z.to_nat depth) with 0%nat by lia. apply Z.leb_le in Hle.
      cbn [min_value_rec]. rewrite Hle. apply bind_ext. intros [|] h'; reflexivity.
    + replace (Z.to_nat depth) with (S (Z.to_nat (depth - 1))) by lia. reflexivity.
  - unfold max_value. destruct (Z.le_gt_cases depth 0) as [Hle|Hgt].
    + replace (Z.to_nat depth) with 0%nat by lia. apply Z.leb_le in Hle.
      cbn [max_value_rec]. rewrite Hle. apply bind_ext. intros [|] h'; reflexivity.
    + replace (Z.to_nat depth) with (S (Z.to_nat (depth - 1))) by lia. reflexivity.
  - apply terminates_min_value.
  - apply terminates_max_value.
  - apply terminates_minimax_decision.
  - intros fuel Hfuel. unfold min_value, max_value.
    apply value_rec_fuel; [assumption|reflexivity].
Qed.

(** ** Rays do not overlap *)

Lemma ray_cell_inj x y d d' k k' :
  d ∈ rays -> d' ∈ rays -> (1 <= k)%nat -> (1 <= k')%nat ->
  ray_cell x y d k = ray_cell x y d' k' -> d = d' /\ k = k'.
Proof.
  destruct d as [dx dy], d' as [dx' dy']. intros Hd Hd' Hk Hk'.
  apply rays_inv in Hd as (Hdx & Hdy & Hnz), Hd' as (Hdx' & Hdy' & Hnz').
  unfold ray_cell. simpl. intros [= E1 E2].
  assert (Z.of_nat k * dx = Z.of_nat k' * dx') as E1' by lia.
  assert (Z.of_nat k * dy = Z.of_nat k' * dy') as E2' by lia.
  clear E1 E2.
  destruct Hdx as [->|[->| ->]], Hdx' as [->|[->| ->]],
           Hdy as [->|[->| ->]], Hdy' as [->|[->| ->]];
    first [lia | split; [reflexivity|lia] | split; [f_equal|]; lia].
Qed.

Lemma ray_cell_not_origin x y d k :
  d ∈ rays -> (1 <= k)%nat -> ray_cell x y d k <> (x, y).
Proof.
  destruct d as [dx dy]. intros Hd Hk.
  apply rays_inv in Hd as (Hdx & Hdy & Hnz).
  unfold ray_cell. simpl. intros [= E1 E2].
  destruct Hdx as [->|[->| ->]], Hdy as [->|[->| ->]]; lia.
Qed.

Lemma NoDup_flat_map {A B} (f : A -> list B) (l : list A) :
  NoDup l ->
  (forall a, a ∈ l -> NoDup (f a)) ->
  (forall a a' b, a ∈ l -> a' ∈ l -> b ∈ f a -> b ∈ f a' -> a = a') ->
  NoDup (flat_map f l).
Proof.
  induction l as [|a l IH]; intros Hl Hf Hdisj; simpl; [constructor|].
  apply NoDup_cons in Hl as [Hnotin Hl].
  apply NoDup_app. split; [apply Hf; left|]. split.
  - intros b Hb Hb'. apply list_elem_of_In, in_flat_map in Hb' as (a' & Ha' & Hb').
    apply list_elem_of_In in Ha', Hb'.
    assert (a = a') as <- by (eapply Hdisj; eauto; [left|now right]).
    contradiction.
  - apply IH; [assumption| |].
    + intros a' Ha'. apply Hf. now right.
    + intros a1 a2 b H1 H2. apply Hdisj; now right.
Qed.

Lemma rays_NoDup : NoDup rays.
Proof.
  unfold rays.
  repeat (apply NoDup_cons; split;
          [rewrite ?elem_of_cons, elem_of_nil; intros H;
           repeat (destruct H as [H|H]; [discriminate|]); exact H|]).
  apply NoDup_nil_2.
Qed.

(** The cells of one walk are the ray cells at distances 1..n. *)
Lemma walk_cells b d fuel x y :
  exists n, walk fuel b (fst d) (snd d) x y = map (ray_cell x y d) (seq 1 n).
Proof.
  revert x y. induction fuel as [|fuel IH]; intros x y; [now exists 0%nat|].
  cbn [walk].
  destruct (on_board (x + fst d) (y + snd d) && is_open b (x + fst d, y + snd d));
    [|now exists 0%nat].
  destruct (IH (x + fst d) (y + snd d)) as [n Hn]. exists (S n).
  rewrite Hn. cbn [seq map]. rewrite ray_cell_1. f_equal.
  rewrite <- (seq_shift n 1), map_map. apply map_ext. intros k. apply ray_cell_shift.
Qed.

Lemma elem_of_ray_cells x y d n c :
  c ∈ map (ray_cell x y d) (seq 1 n) ->
  exists k, (1 <= k)%nat /\ c = ray_cell x y d k.
Proof.
  intros H. apply list_elem_of_In, in_map_iff in H as (k & <- & Hk).
  apply in_seq in Hk. exists k. split; [lia|reflexivity].
Qed.

Lemma legal_moves_placed_distinct s x0 y0 :
  locations s !! Z.to_nat (active s) = Some (Some (x0, y0)) ->
  NoDup (legal_moves s)
  /\ ((x0, y0) ∉ legal_moves s)
  /\ forall c, c ∈ legal_moves s ->
               exists d k, d ∈ rays /\ (1 <= k)%nat /\ c = ray_cell x0 y0 d k.
Proof.
  intros Hloc. unfold legal_moves. rewrite Hloc.
  assert (forall c, c ∈ flat_map (fun d => walk ray_fuel (board s) (fst d) (snd d) x0 y0) rays ->
                    exists d k, d ∈ rays /\ (1 <= k)%nat /\ c = ray_cell x0 y0 d k) as Hcells.
  { intros c Hc. apply list_elem_of_In, in_flat_map in Hc as (d & Hd & Hc).
    apply list_elem_of_In in Hd, Hc.
    destruct (walk_cells (board s) d ray_fuel x0 y0) as [n Hn]. rewrite Hn in Hc.
    apply elem_of_ray_cells in Hc as (k & Hk & ->). eauto. }
  split; [|split; [|assumption]].
  - apply NoDup_flat_map.
    + apply rays_NoDup.
    + intros d Hd. destruct (walk_cells (board s) d ray_fuel x0 y0) as [n ->].
      change (NoDup (ray_cell x0 y0 d <$> seq 1 n)).
      apply NoDup_fmap_2_strong; [|apply NoDup_seq].
      intros k k' Hk Hk' E. apply elem_of_seq in Hk, Hk'.
      apply (ray_cell_inj x0 y0 d d k k' Hd Hd); [lia|lia|assumption].
    + intros d d' c Hd Hd' Hc Hc'.
      destruct (walk_cells (board s) d ray_fuel x0 y0) as [n Hn]. rewrite Hn in Hc.
      destruct (walk_cells (board s) d' ray_fuel x0 y0) as [n' Hn']. rewrite Hn' in Hc'.
      apply elem_of_ray_cells in Hc as (k & Hk & ->).
      apply elem_of_ray_cells in Hc' as (k' & Hk' & E).
      now destruct (ray_cell_inj x0 y0 d d' k k' Hd Hd' Hk Hk' E).
  - intros Hin. destruct (Hcells _ Hin) as (d & k & Hd & Hk & E).
    symmetry in E. now apply ray_cell_not_origin in E.
Qed.

(** C10. On a well-formed instance whose active player is placed at
    [(x0, y0)], the list [get_legal_moves] returns has no duplicates
    and does not contain [(x0, y0)]: each of its cells lies on one of
    the eight rays at a distance of at least 1, and two ray cells
    coincide only if they are the same ray and the same distance. *)
Theorem placed_moves_distinct h self s x0 y0 :
  well_formed h self = true ->
  read_state h self = Some s ->
  locations s !! Z.to_nat (active s) = Some (Some (x0, y0)) ->
  exists moves,
    get_legal_moves self h = (h, Ok moves)
    /\ NoDup moves
    /\ ((x0, y0) ∉ moves)
    /\ (forall c, c ∈ moves ->
                  exists d k, d ∈ rays /\ (1 <= k)%nat /\ c = ray_cell x0 y0 d k)
    /\ (forall d d' k k',
           d ∈ rays -> d' ∈ rays -> (1 <= k)%nat -> (1 <= k')%nat ->
           ray_cell x0 y0 d k = ray_cell x0 y0 d' k' -> d = d' /\ k = k').
Proof.
  intros Hwf Hread Hloc.
  destruct (well_formed_inv h self Hwf) as (s' & Hread' & HR & Hsh).
  assert (s' = s) as -> by congruence.
  destruct (legal_moves_placed_distinct s x0 y0 Hloc) as (Hnd & Hno & Hcells).
  exists (legal_moves s). split; [now apply get_legal_moves_sim|].
  repeat split; try assumption.
  - now destruct (ray_cell_inj x0 y0 d d' k k' H H0 H1 H2 H3).
  - now destruct (ray_cell_inj x0 y0 d d' k k' H H0 H1 H2 H3).
Qed.

Lemma placed_moves_distinct_witness :
  well_formed store2 17%nat = true
  /\ read_state store2 17%nat = Some after_second_move
  /\ locations after_second_move !! Z.to_nat (active after_second_move)
     = Some (Some (0, 0))
  /\ exists moves,
      get_legal_moves 17%nat store2 = (store2, Ok moves)
      /\ NoDup moves
      /\ ((0, 0) ∉ moves)
      /\ (forall c, c ∈ moves ->
                    exists d k, d ∈ rays /\ (1 <= k)%nat /\ c = ray_cell 0 0 d k)
      /\ (forall d d' k k',
             d ∈ rays -> d' ∈ rays -> (1 <= k)%nat -> (1 <= k')%nat ->
             ray_cell 0 0 d k = ray_cell 0 0 d' k' -> d = d' /\ k = k').
Proof.
  split; [reflexivity|]. split; [reflexivity|]. split; [reflexivity|].
  apply (placed_moves_distinct store2 17%nat after_second_move 0 0); reflexivity.
Defined.

(** ** Further properties of the state component *)

(** X1. On a well-formed instance [terminal_test] returns, without
    changing the store, [True] exactly when [get_legal_moves] is empty,
    and that is exactly when [forecast_move] raises the illegal-move
    error for every coordinate pair: a terminal state has no
    successor. *)
Theorem terminal_test_no_successor h self :
  well_formed h self = true ->
  exists b moves,
    terminal_test self h = (h, Ok b)
    /\ get_legal_moves self h = (h, Ok moves)
    /\ (b = true <-> moves = [])
    /\ (b = true <->
        forall mv : coord, forecast_move self mv h = (h, Raise illegal_move)).
Proof.
  intros Hwf. destruct (well_formed_inv h self Hwf) as (s & Hread & HR & Hsh).
  exists (match legal_moves s with [] => true | _ => false end), (legal_moves s).
  split; [now apply terminal_test_sim|].
  split; [now apply get_legal_moves_sim|].
  destruct (legal_moves s) as [|m0 ms] eqn:Hmoves.
  - split; [tauto|]. split; [|reflexivity]. intros _ mv.
    apply (forecast_move_illegal h self s mv HR Hsh). rewrite Hmoves. apply not_elem_of_nil.
  - split; [split; discriminate|]. split; [discriminate|]. intros Hall.
    assert (m0 ∈ legal_moves s) as Hin by (rewrite Hmoves; left).
    destruct (forecast_move_child h self s m0 HR Hsh Hin) as (h' & child & Hf & _).
    rewrite Hall in Hf. discriminate.
Qed.

Lemma terminal_test_no_successor_witness :
  well_formed store2 17%nat = true
  /\ exists b moves,
      terminal_test 17%nat store2 = (store2, Ok b)
      /\ get_legal_moves 17%nat store2 = (store2, Ok moves)
      /\ (b = true <-> moves = [])
      /\ (b = true <->
          forall mv : coord, forecast_move 17%nat mv store2 = (store2, Raise illegal_move)).
Proof.
  split; [reflexivity|]. apply (terminal_test_no_successor store2 17%nat). reflexivity.
Defined.

Lemma range_elem n x : 0 <= x < n -> x ∈ range n.
Proof.
  intros H. unfold range. apply list_elem_of_In, in_map_iff.
  exists (Z.to_nat x). split; [lia|]. apply in_seq. lia.
Qed.

Lemma on_board_row_major c : on_board (fst c) (snd c) = true -> c ∈ row_major.
Proof.
  intros H. apply on_board_inv in H as [Hx Hy]. unfold row_major.
  apply list_elem_of_In, in_flat_map. exists (snd c).
  split; [now apply list_elem_of_In, range_elem|].
  apply in_map_iff. exists (fst c). split; [now destruct c|].
  now apply list_elem_of_In, range_elem.
Qed.

Lemma row_major_NoDup : NoDup row_major.
Proof.
  change row_major with [(0, 0); (1, 0); (2, 0); (0, 1); (1, 1); (2, 1)].
  repeat (apply NoDup_cons; split;
          [rewrite ?elem_of_cons, elem_of_nil; intros H;
           repeat (destruct H as [H|H]; [discriminate|]); exact H|]).
  apply NoDup_nil_2.
Qed.

Lemma filter_NoDup {A} (p : A -> bool) (l : list A) : NoDup l -> NoDup (List.filter p l).
Proof.
  intros H. apply NoDup_ListNoDup. apply List.NoDup_filter. now apply NoDup_ListNoDup.
Qed.

Lemma elem_of_open_cells b c :
  c ∈ open_cells b <-> on_board (fst c) (snd c) = true /\ is_open b c = true.
Proof.
  unfold open_cells. rewrite list_elem_of_In, filter_In, <- list_elem_of_In. split.
  - intros [Hin Hop]. split; [now apply row_major_on_board|assumption].
  - intros [Hon Hop]. split; [now apply on_board_row_major|assumption].
Qed.

(** X2. When the active player of a well-formed instance is unplaced,
    a coordinate pair is among the moves [get_legal_moves] returns if
    and only if it is on the board and its cell is open, and no move
    is listed twice. *)
Theorem unplaced_moves_are_open_cells h self s :
  well_formed h self = true ->
  read_state h self = Some s ->
  locations s !! Z.to_nat (active s) = Some None ->
  exists moves,
    get_legal_moves self h = (h, Ok moves)
    /\ NoDup moves
    /\ forall c : coord,
        c ∈ moves <-> on_board (fst c) (snd c) = true /\ is_open (board s) c = true.
Proof.
  intros Hwf Hread Hloc.
  destruct (well_formed_inv h self Hwf) as (s' & Hread' & HR & Hsh).
  assert (s' = s) as -> by congruence.
  exists (legal_moves s). split; [now apply get_legal_moves_sim|].
  rewrite (legal_moves_unplaced s Hloc). split.
  - apply filter_NoDup, row_major_NoDup.
  - intros c. apply elem_of_open_cells.
Qed.

Lemma unplaced_moves_are_open_cells_witness :
  well_formed store1 11%nat = true
  /\ read_state store1 11%nat = Some after_first_move
  /\ locations after_first_move !! Z.to_nat (active after_first_move) = Some None
  /\ exists moves,
      get_legal_moves 11%nat store1 = (store1, Ok moves)
      /\ NoDup moves
      /\ forall c : coord,
          c ∈ moves <-> on_board (fst c) (snd c) = true
                        /\ is_open (board after_first_move) c = true.
Proof.
  split; [reflexivity|]. split; [reflexivity|]. split; [reflexivity|].
  apply (unplaced_moves_are_open_cells store1 11%nat after_first_move); reflexivity.
Defined.

Lemma open_not_blocked b c : is_open b c = true -> is_blocked b c = true -> False.
Proof.
  unfold is_open, is_blocked. destruct (cell b (fst c) (snd c)); [|discriminate].
  destruct (z =? 0); discriminate.
Qed.

Lemma legal_moves_placed_reach s x0 y0 c :
  shape_ok s = true ->
  locations s !! Z.to_nat (active s) = Some (Some (x0, y0)) ->
  c ∈ legal_moves s <->
  exists d k,
    d ∈ rays /\ (1 <= k)%nat /\ c = ray_cell x0 y0 d k
    /\ forall j, (1 <= j <= k)%nat ->
                 on_board (fst (ray_cell x0 y0 d j)) (snd (ray_cell x0 y0 d j)) = true
                 /\ is_open (board s) (ray_cell x0 y0 d j) = true.
Proof.
  intros Hsh Hloc.
  destruct (legal_moves_placed s x0 y0 Hsh Hloc) as (segs & Hsegs & ->). split.
  - intros Hin. apply list_elem_of_In, in_concat in Hin as (seg & Hseg & Hin).
    apply list_elem_of_In, list_elem_of_lookup in Hseg as [i Hi].
    destruct (Forall2_lookup_r _ _ _ _ _ Hsegs Hi) as (d & Hd & (n & -> & Hopen & _)).
    apply in_map_iff in Hin as (k & <- & Hk). apply in_seq in Hk.
    exists d, k. split; [eapply list_elem_of_lookup_2; eauto|]. split; [lia|].
    split; [reflexivity|]. intros j Hj. apply Hopen. lia.
  - intros (d & k & Hd & Hk & -> & Hopen).
    apply list_elem_of_lookup in Hd as [i Hi].
    destruct (Forall2_lookup_l _ _ _ _ _ Hsegs Hi) as (seg & Hseg & (n & -> & _ & Hstop)).
    apply list_elem_of_In, in_concat. exists (map (ray_cell x0 y0 d) (seq 1 n)).
    split; [apply list_elem_of_In; eapply list_elem_of_lookup_2; eauto|].
    apply in_map_iff. exists k. split; [reflexivity|]. apply in_seq.
    destruct (le_lt_dec k n) as [Hle|Hgt]; [lia|]. exfalso.
    destruct (Hopen (S n) ltac:(lia)) as [Hon Hop].
    destruct Hstop as [Hoff|Hbl]; [congruence|]. eapply open_not_blocked; eauto.
Qed.

(** X3. When the active player of a well-formed instance stands at
    [(x0, y0)], a coordinate pair is among the moves [get_legal_moves]
    returns if and only if it lies [k >= 1] steps from [(x0, y0)]
    along one of the eight rays and every cell on the way, itself
    included, is on the board and open. *)
Theorem placed_moves_are_reachable_cells h self s x0 y0 :
  well_formed h self = true ->
  read_state h self = Some s ->
  locations s !! Z.to_nat (active s) = Some (Some (x0, y0)) ->
  exists moves,
    get_legal_moves self h = (h, Ok moves)
    /\ forall c : coord,
        c ∈ moves <->
        exists d k,
          d ∈ rays /\ (1 <= k)%nat /\ c = ray_cell x0 y0 d k
          /\ forall j, (1 <= j <= k)%nat ->
                       on_board (fst (ray_cell x0 y0 d j)) (snd (ray_cell x0 y0 d j)) = true
                       /\ is_open (board s) (ray_cell x0 y0 d j) = true.
Proof.
  intros Hwf Hread Hloc.
  destruct (well_formed_inv h self Hwf) as (s' & Hread' & HR & Hsh).
  assert (s' = s) as -> by congruence.
  exists (legal_moves s). split; [now apply get_legal_moves_sim|].
  intros c. now apply legal_moves_placed_reach.
Qed.

Lemma placed_moves_are_reachable_cells_witness :
  well_formed store2 17%nat = true
  /\ read_state store2 17%nat = Some after_second_move
  /\ locations after_second_move !! Z.to_nat (active after_second_move)
     = Some (Some (0, 0))
  /\ exists moves,
      get_legal_moves 17%nat store2 = (store2, Ok moves)
      /\ forall c : coord,
          c ∈ moves <->
          exists d k,
            d ∈ rays /\ (1 <= k)%nat /\ c = ray_cell 0 0 d k
            /\ forall j, (1 <= j <= k)%nat ->
                         on_board (fst (ray_cell 0 0 d j)) (snd (ray_cell 0 0 d j)) = true
                         /\ is_open (board after_second_move) (ray_cell 0 0 d j) = true.
Proof.
  split; [reflexivity|]. split; [reflexivity|]. split; [reflexivity|].
  apply (placed_moves_are_reachable_cells store2 17%nat after_second_move 0 0); reflexivity.
Defined.

(** ** Further invariants along a line of play *)

Lemma play_sim (h0 : heap) ms h states :
  play ms h0 = (h, Ok states) ->
  Forall2 (Rep h) states (line initial_state ms) /\ legal_line initial_state ms.
Proof.
  intros Hplay. unfold play in Hplay.
  destruct (init_sim h0) as (k0 & root & Hnew & Hown).
  apply Owned_Rep in Hown.
  rewrite (bind_ok _ _ _ _ _ Hnew) in Hplay.
  assert (shape_ok initial_state = true) as Hsh by reflexivity.
  destruct (play_from_sim ms _ root _ h states Hown Hsh Hplay) as (_ & Hall & Hlegal).
  now split.
Qed.

Lemma line_length ms : forall s, length (line s ms) = S (length ms).
Proof.
  induction ms as [|m ms IH]; intros s; [reflexivity|].
  cbn [line length]. now rewrite IH.
Qed.

(** The state after [S j] moves is the state after [j] moves with the
    move of index [j] applied, and that move was legal there. *)
Lemma line_pred ms :
  forall s j st',
    legal_line s ms ->
    line s ms !! S j = Some st' ->
    exists st m,
      line s ms !! j = Some st /\ ms !! j = Some m
      /\ m ∈ legal_moves st /\ st' = apply_move st m.
Proof.
  induction ms as [|m ms IH]; intros s j st' Hlegal Hj; [discriminate|].
  destruct Hlegal as [Hin Hlegal].
  cbn [line] in Hj. change ((?a :: ?l) !! S j) with (l !! j) in Hj.
  destruct j as [|j].
  - exists s, m. destruct ms; injection Hj as <-; repeat split; assumption.
  - destruct (IH _ j st' Hlegal Hj) as (st & m' & Hst & Hm' & Hin' & ->).
    exists st, m'. repeat split; assumption.
Qed.

Lemma line_state_shape ms s j st :
  shape_ok s = true -> line s ms !! j = Some st -> shape_ok st = true.
Proof.
  intros Hsh Hj. pose proof (line_shape_ok ms s Hsh) as Hall.
  rewrite Forall_forall in Hall. apply Hall. eapply list_elem_of_lookup_2; eauto.
Qed.

(** X4. In every state of a line of play, [get_legal_moves] offers
    neither a cell that was moved to earlier in the line nor the cell
    a player stands on: no cell is ever visited twice. *)
Theorem line_of_play_no_revisit (h0 : heap) ms h states :
  play ms h0 = (h, Ok states) ->
  forall j l,
    states !! j = Some l ->
    exists st moves,
      read_state h l = Some st
      /\ get_legal_moves l h = (h, Ok moves)
      /\ (forall i m, (i < j)%nat -> ms !! i = Some m -> m ∉ moves)
      /\ (forall p pos, locations st !! p = Some (Some pos) -> pos ∉ moves).
Proof.
  intros Hplay j l Hl.
  destruct (play_sim h0 ms h states Hplay) as [Hall Hlegal].
  destruct (Forall2_lookup_l _ _ _ _ _ Hall Hl) as (st & Hst & HR).
  assert (shape_ok initial_state = true) as Hsh0 by reflexivity.
  pose proof (line_state_shape ms _ j st Hsh0 Hst) as Hsh.
  destruct (line_invariants ms _ Hsh0 players_blocked_initial Hlegal j st Hst)
    as (Hpb & Hocc & _).
  exists st, (legal_moves st).
  split; [now apply Rep_read_state|]. split; [now apply get_legal_moves_sim|]. split.
  - intros i m Hi Hm Hin. destruct (legal_moves_open st m Hin) as [_ Hop].
    eapply open_not_blocked; eauto.
  - intros p pos Hp Hin. destruct (legal_moves_open st pos Hin) as [_ Hop].
    eapply open_not_blocked; eauto.
Qed.

Lemma line_of_play_no_revisit_witness :
  play [(0, 0); (1, 1)] [] = (store2, Ok [5; 11; 17]%nat)
  /\ forall j l,
      [5; 11; 17]%nat !! j = Some l ->
      exists st moves,
        read_state store2 l = Some st
        /\ get_legal_moves l store2 = (store2, Ok moves)
        /\ (forall i m, (i < j)%nat -> [(0, 0); (1, 1)] !! i = Some m -> m ∉ moves)
        /\ (forall p pos, locations st !! p = Some (Some pos) -> pos ∉ moves).
Proof.
  split; [reflexivity|].
  apply (line_of_play_no_revisit [] [(0, 0); (1, 1)] store2 [5; 11; 17]%nat). reflexivity.
Defined.

(** *** Counting cells *)

Lemma filter_length_remove {A} (p p' : A -> bool) (l : list A) (m : A) :
  NoDup l -> m ∈ l -> p m = true -> p' m = false ->
  (forall x, x ∈ l -> x <> m -> p' x = p x) ->
  (length (List.filter p' l) + 1 = length (List.filter p l))%nat.
Proof.
  induction l as [|a l IH]; intros Hnd Hin Hpm Hp'm Hsame; [inversion Hin|].
  apply NoDup_cons in Hnd as [Hnotin Hnd]. cbn [List.filter].
  apply elem_of_cons in Hin as [->|Hin].
  - rewrite Hpm, Hp'm. cbn [length].
    assert (List.filter p' l = List.filter p l) as ->; [|lia].
    apply List.filter_ext_in. intros x Hx. apply list_elem_of_In in Hx.
    apply Hsame; [now right|]. intros ->. contradiction.
  - assert (a <> m) as Hne by (intros ->; contradiction).
    rewrite (Hsame a) by (auto; left).
    assert (length (List.filter p' l) + 1 = length (List.filter p l))%nat as E.
    { apply IH; try assumption. intros x Hx. apply Hsame. now right. }
    destruct (p a); cbn [length]; lia.
Qed.

Lemma filter_length_split {A} (p q : A -> bool) (l : list A) :
  (forall x, x ∈ l -> q x = negb (p x)) ->
  (length (List.filter q l) + length (List.filter p l) = length l)%nat.
Proof.
  induction l as [|a l IH]; intros H; [reflexivity|].
  cbn [List.filter]. rewrite (H a) by left.
  assert (length (List.filter q l) + length (List.filter p l) = length l)%nat as E
      by (apply IH; intros x Hx; apply H; now right).
  destruct (p a); cbn [negb length]; lia.
Qed.

(** A legal move closes exactly one open cell. *)
Lemma open_count_apply_move s m :
  m ∈ legal_moves s -> (open_count (apply_move s m) + 1 = open_count s)%nat.
Proof.
  intros Hin. destruct (legal_moves_open s m Hin) as [Hon Hop].
  unfold open_count, open_cells.
  apply (filter_length_remove _ _ row_major m).
  - apply row_major_NoDup.
  - now apply on_board_row_major.
  - assumption.
  - unfold is_open in *.
    destruct (cell (board s) (fst m) (snd m)) as [v0|] eqn:Hv0; [|discriminate].
    now rewrite (cell_apply_move_same s m v0 Hv0).
  - intros c Hc Hne. apply on_board_inv in Hon. unfold is_open.
    rewrite cell_apply_move_other; [reflexivity|lia|lia|now destruct c].
Qed.

Lemma blocked_open_count s :
  shape_ok s = true -> (blocked_count s + open_count s = 6)%nat.
Proof.
  intros Hsh. unfold blocked_count, open_count, open_cells.
  change 6%nat with (length row_major). apply filter_length_split.
  intros c Hc. apply row_major_on_board in Hc.
  destruct (cell_on_board s _ _ Hsh Hc) as [v Hv].
  unfold is_blocked, is_open. now rewrite Hv.
Qed.

Lemma line_open_count ms :
  forall j st,
    legal_line initial_state ms ->
    line initial_state ms !! j = Some st ->
    (open_count st + j = 5)%nat.
Proof.
  induction j as [|j IH]; intros st Hlegal Hj.
  - destruct ms; injection Hj as <-; reflexivity.
  - destruct (line_pred ms _ j st Hlegal Hj) as (st0 & m & Hst0 & Hm & Hin & ->).
    pose proof (IH st0 Hlegal Hst0) as E.
    pose proof (open_count_apply_move st0 m Hin). lia.
Qed.

(** X6. Along a line of play every move closes exactly one cell: the
    state reached after [j] moves has [5 - j] open and [1 + j] blocked
    cells among the six of the board, so that no line of play has more
    than five moves. *)
Theorem line_of_play_counts (h0 : heap) ms h states :
  play ms h0 = (h, Ok states) ->
  (length ms <= 5)%nat
  /\ forall j l,
      states !! j = Some l ->
      exists st,
        read_state h l = Some st
        /\ (open_count st + j = 5)%nat
        /\ blocked_count st = (1 + j)%nat.
Proof.
  intros Hplay.
  destruct (play_sim h0 ms h states Hplay) as [Hall Hlegal].
  assert (shape_ok initial_state = true) as Hsh0 by reflexivity.
  split.
  - destruct (lookup_lt_is_Some_2 (line initial_state ms) (length ms)) as [st Hst];
      [rewrite line_length; lia|].
    pose proof (line_open_count ms _ st Hlegal Hst). lia.
  - intros j l Hl.
    destruct (Forall2_lookup_l _ _ _ _ _ Hall Hl) as (st & Hst & HR).
    exists st. split; [now apply Rep_read_state|].
    pose proof (line_open_count ms j st Hlegal Hst) as E.
    pose proof (blocked_open_count st (line_state_shape ms _ j st Hsh0 Hst)).
    split; lia.
Qed.

Lemma line_of_play_counts_witness :
  play [(0, 0); (1, 1)] [] = (store2, Ok [5; 11; 17]%nat)
  /\ (length [(0, 0); (1, 1)] <= 5)%nat
  /\ forall j l,
      [5; 11; 17]%nat !! j = Some l ->
      exists st,
        read_state store2 l = Some st
        /\ (open_count st + j = 5)%nat
        /\ blocked_count st = (1 + j)%nat.
Proof.
  split; [reflexivity|].
  apply (line_of_play_counts [] [(0, 0); (1, 1)] store2 [5; 11; 17]%nat). reflexivity.
Defined.

(** *** Turns and player slots *)

Lemma mod2_facts j :
  ((j mod 2 = 0 \/ j mod 2 = 1) /\ S j mod 2 = 1 - j mod 2)%nat.
Proof.
  pose proof (Nat.div_mod_eq j 2). pose proof (Nat.div_mod_eq (S j) 2).
  pose proof (Nat.mod_upper_bound j 2). pose proof (Nat.mod_upper_bound (S j) 2).
  lia.
Qed.

Lemma line_turns ms :
  forall j st,
    legal_line initial_state ms ->
    line initial_state ms !! j = Some st ->
    active st = Z.of_nat (j mod 2)
    /\ length (locations st) = 2%nat
    /\ (forall p, (p < 2)%nat -> (locations st !! p = Some None <-> (j <= p)%nat))
    /\ (forall i m, (i < j <= i + 2)%nat -> ms !! i = Some m ->
                    locations st !! (i mod 2)%nat = Some (Some m)).
Proof.
  induction j as [|j IH]; intros st Hlegal Hj.
  - assert (st = initial_state) as -> by (destruct ms; now injection Hj as <-).
    split; [reflexivity|]. split; [reflexivity|]. split; [|intros; lia].
    intros [|[|p]] Hp; [split; [lia|reflexivity]|split; [lia|reflexivity]|lia].
  - destruct (line_pred ms _ j st Hlegal Hj) as (st0 & m & Hst0 & Hm & Hin & ->).
    destruct (IH st0 Hlegal Hst0) as (Hact & Hlen & Hnone & Hlast).
    destruct (mod2_facts j) as [Hj2 HSj].
    assert (Z.to_nat (active st0) = (j mod 2)%nat) as Hidx by (rewrite Hact; lia).
    cbn [apply_move active locations]. rewrite Hidx.
    split; [|split; [|split]].
    + rewrite Hact, HSj. destruct Hj2 as [-> | ->]; reflexivity.
    + now rewrite length_insert.
    + intros p Hp. destruct (decide (p = (j mod 2)%nat)) as [->|Hne].
      * rewrite list_lookup_insert_eq by lia. split; [discriminate|].
        intros Hle. destruct j as [|[|j]]; [simpl in Hle; lia|simpl in Hle; lia|].
        lia.
      * rewrite list_lookup_insert_ne by congruence. rewrite (Hnone p Hp).
        destruct j as [|[|j]]; simpl in Hne; lia.
    + intros i m' Hi Hm'. destruct (decide (i = j)) as [->|Hne].
      * assert (m' = m) as -> by congruence.
        apply list_lookup_insert_eq. lia.
      * assert (S i = j) as <- by lia.
        destruct (mod2_facts i) as [Hi2 HSi].
        rewrite list_lookup_insert_ne by lia.
        apply Hlast; [lia|assumption].
Qed.

(** X7. Along a line of play the players alternate, player 0 first:
    after [j] moves player [j mod 2] is to move; the slot of player
    [p] is unplaced exactly while that player has not moved ([j <= p]);
    and each of the last two moves is the location of the player who
    made it. *)
Theorem line_of_play_turns (h0 : heap) ms h states :
  play ms h0 = (h, Ok states) ->
  forall j l,
    states !! j = Some l ->
    exists st,
      read_state h l = Some st
      /\ active st = Z.of_nat (j mod 2)
      /\ (forall p, (p < 2)%nat -> (locations st !! p = Some None <-> (j <= p)%nat))
      /\ (forall i m, (i < j <= i + 2)%nat -> ms !! i = Some m ->
                      locations st !! (i mod 2)%nat = Some (Some m)).
Proof.
  intros Hplay j l Hl.
  destruct (play_sim h0 ms h states Hplay) as [Hall Hlegal].
  destruct (Forall2_lookup_l _ _ _ _ _ Hall Hl) as (st & Hst & HR).
  destruct (line_turns ms j st Hlegal Hst) as (Hact & _ & Hnone & Hlast).
  exists st. split; [now apply Rep_read_state|]. auto.
Qed.

Lemma line_of_play_turns_witness :
  play [(0, 0); (1, 1)] [] = (store2, Ok [5; 11; 17]%nat)
  /\ forall j l,
      [5; 11; 17]%nat !! j = Some l ->
      exists st,
        read_state store2 l = Some st
        /\ active st = Z.of_nat (j mod 2)
        /\ (forall p, (p < 2)%nat -> (locations st !! p = Some None <-> (j <= p)%nat))
        /\ (forall i m, (i < j <= i + 2)%nat -> [(0, 0); (1, 1)] !! i = Some m ->
                        locations st !! (i mod 2)%nat = Some (Some m)).
Proof.
  split; [reflexivity|].
  apply (line_of_play_turns [] [(0, 0); (1, 1)] store2 [5; 11; 17]%nat). reflexivity.
Defined.

(** ** Further properties of the search *)

Lemma neg_py_min a x : neg (py_min a x) = py_max (neg a) (neg x).
Proof.
  destruct a as [|a|], x as [|x|]; try reflexivity.
  unfold py_min, py_max. cbn [neg num_ltb].
  destruct (Z.ltb_spec x a), (Z.ltb_spec (- a) (- x)); try reflexivity; lia.
Qed.

Lemma neg_involutive v : neg (neg v) = v.
Proof. destruct v; simpl; try reflexivity. now rewrite Z.opp_involutive. Qed.

Lemma fold_neg (g g' : coord -> num) (l : list coord) :
  (forall mv, g mv = neg (g' mv)) ->
  forall a,
    fold_left (fun v mv => py_max v (g mv)) l (neg a)
    = neg (fold_left (fun v mv => py_min v (g' mv)) l a).
Proof.
  intros Hg. induction l as [|m l IH]; intros a; [reflexivity|].
  cbn [fold_left]. rewrite Hg, <- neg_py_min. apply IH.
Qed.

(** The two value functions are each other's negation. *)
Lemma val_neg n : forall s, max_val n s = neg (min_val n s).
Proof.
  induction n as [|n IH]; intros s.
  - simpl. now destruct (legal_moves s).
  - cbn [min_val max_val]. destruct (legal_moves s) as [|m0 ms]; [reflexivity|].
    apply (fold_neg (fun mv => min_val n (apply_move s mv))
                    (fun mv => max_val n (apply_move s mv)) (m0 :: ms)
                    (fun mv => eq_sym (eq_trans (f_equal neg (IH _)) (neg_involutive _)))
                    PosInf).
Qed.

(** X5. On a well-formed instance, at every depth, [min_value] returns
    the negation of what [max_value] returns: the +1 / -1 of the two
    terminal cases is the same fact seen from the two sides. *)
Theorem min_value_is_negated_max_value h self depth :
  well_formed h self = true ->
  exists h1 h2 v,
    max_value self depth h = (h1, Ok (Int v))
    /\ min_value self depth h = (h2, Ok (Int (- v))).
Proof.
  intros Hwf. destruct (well_formed_inv h self Hwf) as (s & Hread & HR & Hsh).
  destruct (max_value_sim h self s depth HR Hsh) as (h1 & Hmax & _).
  destruct (min_value_sim h self s depth HR Hsh) as (h2 & Hmin & _).
  destruct (proj1 (val_in_range (Z.to_nat depth) s)) as (z & Hz & _).
  exists h1, h2, (- z). rewrite Hmax, Hmin, val_neg, Hz. cbn [neg].
  now rewrite Z.opp_involutive.
Qed.

Lemma min_value_is_negated_max_value_witness :
  well_formed store1 11%nat = true
  /\ exists h1 h2 v,
      max_value 11%nat 4 store1 = (h1, Ok (Int v))
      /\ min_value 11%nat 4 store1 = (h2, Ok (Int (- v))).
Proof.
  split; [reflexivity|].
  apply (min_value_is_negated_max_value store1 11%nat 4). reflexivity.
Defined.

(** *** Searching to the end of the game *)

Lemma legal_moves_open_count s m :
  m ∈ legal_moves s -> (1 <= open_count s)%nat.
Proof. intros Hin. pose proof (open_count_apply_move s m Hin). lia. Qed.

Lemma max_val_succ_is_max n s :
  legal_moves s <> [] ->
  exists v,
    max_val (S n) s = Int v
    /\ is_max v (map (fun mv => int_of (min_val n (apply_move s mv))) (legal_moves s)).
Proof.
  intros Hne. rewrite max_val_step by assumption.
  rewrite (map_Int_int_of (fun mv => min_val n (apply_move s mv)))
    by (intros m; apply val_in_range).
  destruct (legal_moves s) as [|m0 ms]; [contradiction|]. apply fold_py_max_is_max.
Qed.

Lemma max_val_terminal n s : legal_moves s = [] -> max_val n s = Int (-1).
Proof. intros H. destruct n; simpl; now rewrite H. Qed.

Lemma min_val_of_max_val n s z : max_val n s = Int z -> min_val n s = Int (- z).
Proof.
  rewrite val_neg. destruct (min_val n s) as [|w|]; try discriminate.
  cbn [neg]. intros [= <-]. now rewrite Z.opp_involutive.
Qed.

(** With at least as many plies as open cells the cut-off value 0
    does not occur. *)
Lemma val_decided n :
  forall s, (open_count s <= n)%nat -> max_val n s = Int 1 \/ max_val n s = Int (-1).
Proof.
  induction n as [|n IH]; intros s Hn.
  - destruct (legal_moves s) as [|m0 ms] eqn:Hmoves.
    + right. now apply max_val_terminal.
    + assert (m0 ∈ legal_moves s) as Hin by (rewrite Hmoves; left).
      apply legal_moves_open_count in Hin. lia.
  - destruct (legal_moves s) as [|m0 ms] eqn:Hmoves.
    + right. now apply max_val_terminal.
    + destruct (max_val_succ_is_max n s) as (v & Hv & [Hin _]);
        [rewrite Hmoves; discriminate|].
      apply list_elem_of_In, in_map_iff in Hin as (mv & <- & Hmv).
      apply list_elem_of_In in Hmv. rewrite Hv.
      pose proof (open_count_apply_move s mv Hmv) as Hc.
      destruct (IH (apply_move s mv) ltac:(lia)) as [E|E];
        rewrite (min_val_of_max_val _ _ _ E); simpl; auto.
Qed.

(** What a successful [forecast_move] tells about its argument and its
    result. *)
Lemma forecast_move_inv h self s mv h' child :
  Rep h self s -> shape_ok s = true ->
  forecast_move self mv h = (h', Ok child) ->
  mv ∈ legal_moves s
  /\ Rep h' child (apply_move s mv)
  /\ shape_ok (apply_move s mv) = true.
Proof.
  intros HR Hsh Hf. destruct (decide (mv ∈ legal_moves s)) as [Hin|Hnot].
  - destruct (forecast_move_child h self s mv HR Hsh Hin) as (h1 & c1 & Hf1 & _ & HRc & Hshc).
    assert (h1 = h' /\ c1 = child) as [-> ->] by (split; congruence). auto.
  - rewrite (forecast_move_illegal h self s mv HR Hsh Hnot) in Hf. discriminate.
Qed.

Lemma wins_inv h self :
  wins h self ->
  exists mv h' child, forecast_move self mv h = (h', Ok child) /\ loses h' child.
Proof. inversion 1; eauto. Qed.

Lemma loses_inv h self :
  loses h self ->
  forall mv h' child, forecast_move self mv h = (h', Ok child) -> wins h' child.
Proof. inversion 1; auto. Qed.

(** The value computed with enough plies is the value of the game. *)
Lemma game_value n :
  forall s h self,
    Rep h self s -> shape_ok s = true -> (open_count s <= n)%nat ->
    (wins h self <-> max_val n s = Int 1)
    /\ (loses h self <-> max_val n s = Int (-1)).
Proof.
  induction n as [|n IH]; intros s h self HR Hsh Hn;
    destruct (legal_moves s) as [|m0 ms] eqn:Hmoves.
  1, 3: rewrite (max_val_terminal _ s Hmoves); split; split;
    [ intros Hw; apply wins_inv in Hw as (mv & h' & child & Hf & _);
      destruct (forecast_move_inv _ _ _ _ _ _ HR Hsh Hf) as [Hin _];
      rewrite Hmoves in Hin; inversion Hin
    | discriminate
    | reflexivity
    | intros _; constructor; intros mv h' child Hf;
      destruct (forecast_move_inv _ _ _ _ _ _ HR Hsh Hf) as [Hin _];
      rewrite Hmoves in Hin; inversion Hin ].
  - assert (m0 ∈ legal_moves s) as Hin by (rewrite Hmoves; left).
    apply legal_moves_open_count in Hin. lia.
  - assert (legal_moves s <> []) as Hne by (rewrite Hmoves; discriminate).
    destruct (max_val_succ_is_max n s Hne) as (v & Hv & Hvin & Hvmax).
    rewrite Hv. clear Hmoves.
    assert (forall mv, mv ∈ legal_moves s -> (open_count (apply_move s mv) <= n)%nat) as Hchild
        by (intros mv Hmv; pose proof (open_count_apply_move s mv Hmv); lia).
    assert (forall mv, mv ∈ legal_moves s ->
                       int_of (min_val n (apply_move s mv)) <= v) as Hle.
    { intros mv Hmv. rewrite Forall_forall in Hvmax. apply Hvmax.
      apply list_elem_of_In, in_map_iff. exists mv. split; [reflexivity|].
      now apply list_elem_of_In. }
    apply list_elem_of_In, in_map_iff in Hvin as (mx & Hmx & Hmxin).
    apply list_elem_of_In in Hmxin.
    assert (-1 <= v <= 1) as Hvr.
    { destruct (proj1 (val_in_range n (apply_move s mx))) as (z & Hz & Hr).
      rewrite Hz in Hmx. simpl in Hmx. lia. }
    split; split.
    + intros Hw. apply wins_inv in Hw as (mv & h' & child & Hf & Hl).
      destruct (forecast_move_inv _ _ _ _ _ _ HR Hsh Hf) as (Hmv & HRc & Hshc).
      apply (IH _ _ _ HRc Hshc (Hchild _ Hmv)) in Hl.
      pose proof (Hle mv Hmv) as Hb. rewrite (min_val_of_max_val _ _ _ Hl) in Hb.
      simpl in Hb. f_equal. lia.
    + intros [= ->].
      destruct (forecast_move_child h self s mx HR Hsh Hmxin) as (h' & child & Hf & _ & HRc & Hshc).
      apply (wins_by h self mx h' child Hf).
      apply (IH _ _ _ HRc Hshc (Hchild _ Hmxin)).
      destruct (val_decided n _ (Hchild _ Hmxin)) as [E|E]; [|assumption].
      rewrite (min_val_of_max_val _ _ _ E) in Hmx. discriminate.
    + intros Hl. pose proof (loses_inv _ _ Hl) as Hall.
      destruct (forecast_move_child h self s mx HR Hsh Hmxin) as (h' & child & Hf & _ & HRc & Hshc).
      apply Hall in Hf. apply (IH _ _ _ HRc Hshc (Hchild _ Hmxin)) in Hf.
      rewrite (min_val_of_max_val _ _ _ Hf) in Hmx. simpl in Hmx. now rewrite <- Hmx.
    + intros [= ->]. constructor. intros mv h' child Hf.
      destruct (forecast_move_inv _ _ _ _ _ _ HR Hsh Hf) as (Hmv & HRc & Hshc).
      apply (IH _ _ _ HRc Hshc (Hchild _ Hmv)).
      destruct (val_decided n _ (Hchild _ Hmv)) as [E|E]; [assumption|].
      pose proof (Hle mv Hmv) as Hb. rewrite (min_val_of_max_val _ _ _ E) in Hb.
      simpl in Hb. lia.
Qed.

(** X8. When the depth is at least the number of open cells of a
    well-formed instance, the cut-off is never reached and [max_value]
    returns the value of the game: +1 or -1, +1 exactly when the
    player to move wins (some accepted move leads to a state that
    loses) and -1 exactly when that player loses (every accepted move
    leads to a state that wins). *)
Theorem max_value_is_game_value h self s depth :
  well_formed h self = true ->
  read_state h self = Some s ->
  (open_count s <= Z.to_nat depth)%nat ->
  exists h' v,
    max_value self depth h = (h', Ok (Int v))
    /\ (v = 1 \/ v = -1)
    /\ (v = 1 <-> wins h self)
    /\ (v = -1 <-> loses h self).
Proof.
  intros Hwf Hread Hdepth.
  destruct (well_formed_inv h self Hwf) as (s' & Hread' & HR & Hsh).
  assert (s' = s) as -> by congruence.
  destruct (max_value_sim h self s depth HR Hsh) as (h' & Hmax & _).
  destruct (game_value _ s h self HR Hsh Hdepth) as [Hw Hl].
  rewrite Hmax.
  destruct (val_decided _ s Hdepth) as [E|E]; rewrite E in *.
  - exists h', 1. split; [reflexivity|]. split; [now left|]. split.
    + split; [intros _; now apply Hw|reflexivity].
    + split; [discriminate|]. intros Hlose. apply Hl in Hlose. discriminate.
  - exists h', (-1). split; [reflexivity|]. split; [now right|]. split.
    + split; [discriminate|]. intros Hwin. apply Hw in Hwin. discriminate.
    + split; [intros _; now apply Hl|reflexivity].
Qed.

Lemma max_value_is_game_value_witness :
  well_formed store0 5%nat = true
  /\ read_state store0 5%nat = Some initial_state
  /\ (open_count initial_state <= Z.to_nat 5)%nat
  /\ exists h' v,
      max_value 5%nat 5 store0 = (h', Ok (Int v))
      /\ (v = 1 \/ v = -1)
      /\ (v = 1 <-> wins store0 5%nat)
      /\ (v = -1 <-> loses store0 5%nat).
Proof.
  split; [reflexivity|]. split; [reflexivity|]. split; [vm_compute; lia|].
  apply (max_value_is_game_value store0 5%nat initial_state 5);
    [reflexivity|reflexivity|vm_compute; lia].
Defined.

(** *** The decision at the two extremes of depth *)

Lemma decision_fold h self s depth :
  Rep h self s -> shape_ok s = true -> legal_moves s <> [] ->
  exists h' pre m post,
    minimax_decision self depth h = (h', Ok (Some m))
    /\ legal_moves s = pre ++ m :: post
    /\ Forall (fun x => int_of (min_val (Z.to_nat (depth - 1)) (apply_move s x))
                        < int_of (min_val (Z.to_nat (depth - 1)) (apply_move s m))) pre
    /\ Forall (fun x => int_of (min_val (Z.to_nat (depth - 1)) (apply_move s x))
                        <= int_of (min_val (Z.to_nat (depth - 1)) (apply_move s m))) post.
Proof.
  intros HR Hsh Hne.
  destruct (minimax_decision_sim h self s depth HR Hsh) as (h' & Hd & _).
  set (g := fun mv => min_val (Z.to_nat (depth - 1)) (apply_move s mv)) in *.
  assert (forall m, in_range (g m)) as Hg by (intros m; apply val_in_range).
  destruct (pick_fold g Hg (legal_moves s) NegInf None (or_introl eq_refl))
    as [[_ Hall]|(pre & m & post & Hsplit & Hr & _ & Hpre & Hpost)].
  - destruct (legal_moves s) as [|m0 ms]; [contradiction|].
    apply Forall_cons in Hall as [H0 _].
    destruct (Hg m0) as (z & Hz & _). rewrite Hz in H0. discriminate.
  - exists h', pre, m, post. rewrite Hd, Hr. auto.
Qed.

(** X9. When the depth is at least the number of open cells of a
    well-formed instance: with no legal move the player to move has
    lost and the decision is "no move"; otherwise the decision is a
    move that [forecast_move] accepts, and if the player to move can
    win at all, the state that move leads to is lost for the
    opponent. *)
Theorem minimax_decision_plays_a_win h self s depth :
  well_formed h self = true ->
  read_state h self = Some s ->
  (open_count s <= Z.to_nat depth)%nat ->
  exists moves,
    get_legal_moves self h = (h, Ok moves)
    /\ match moves with
       | [] => minimax_decision self depth h = (h, Ok None) /\ loses h self
       | _ :: _ =>
           exists h' m h'' child,
             minimax_decision self depth h = (h', Ok (Some m))
             /\ forecast_move self m h = (h'', Ok child)
             /\ (wins h self -> loses h'' child)
       end.
Proof.
  intros Hwf Hread Hdepth.
  destruct (well_formed_inv h self Hwf) as (s' & Hread' & HR & Hsh).
  assert (s' = s) as -> by congruence.
  exists (legal_moves s). split; [now apply get_legal_moves_sim|].
  destruct (legal_moves s) as [|m0 ms] eqn:Hmoves.
  - split.
    + unfold minimax_decision.
      rewrite (bind_ok _ _ _ _ _ (get_legal_moves_sim _ _ _ HR Hsh)). now rewrite Hmoves.
    + apply (game_value _ s h self HR Hsh Hdepth). now apply max_val_terminal.
  - assert (legal_moves s <> []) as Hne by (rewrite Hmoves; discriminate).
    destruct (decision_fold h self s depth HR Hsh Hne)
      as (h' & pre & m & post & Hd & Hsplit & Hpre & Hpost).
    assert (m ∈ legal_moves s) as Hm
        by (rewrite Hsplit; apply elem_of_app; right; left).
    destruct (forecast_move_child h self s m HR Hsh Hm) as (h'' & child & Hf & _ & HRc & Hshc).
    exists h', m, h'', child. split; [assumption|]. split; [assumption|].
    intros Hw.
    pose proof (legal_moves_open_count s m Hm) as Hopen.
    assert (Z.to_nat depth = S (Z.to_nat (depth - 1))) as Hd1 by lia.
    apply (game_value _ s h self HR Hsh Hdepth) in Hw. rewrite Hd1 in Hw.
    destruct (max_val_succ_is_max (Z.to_nat (depth - 1)) s Hne) as (v & Hv & Hvin & _).
    rewrite Hv in Hw. injection Hw as ->.
    apply list_elem_of_In, in_map_iff in Hvin as (mx & Hmx & Hmxin).
    apply list_elem_of_In in Hmxin.
    assert (1 <= int_of (min_val (Z.to_nat (depth - 1)) (apply_move s m))) as Hbest.
    { rewrite Forall_forall in Hpre, Hpost. rewrite Hsplit in Hmxin.
      apply elem_of_app in Hmxin as [Hin|Hin].
      - specialize (Hpre _ Hin). cbv beta in Hpre. lia.
      - apply elem_of_cons in Hin as [->|Hin]; [lia|].
        specialize (Hpost _ Hin). cbv beta in Hpost. lia. }
    pose proof (open_count_apply_move s m Hm) as Hc.
    apply (game_value (Z.to_nat (depth - 1)) _ h'' child HRc Hshc); [lia|].
    destruct (val_decided (Z.to_nat (depth - 1)) (apply_move s m) ltac:(lia)) as [E|E];
      [|assumption].
    rewrite (min_val_of_max_val _ _ _ E) in Hbest. simpl in Hbest. lia.
Qed.

Lemma minimax_decision_plays_a_win_witness :
  well_formed store0 5%nat = true
  /\ read_state store0 5%nat = Some initial_state
  /\ (open_count initial_state <= Z.to_nat 5)%nat
  /\ exists moves,
      get_legal_moves 5%nat store0 = (store0, Ok moves)
      /\ match moves with
         | [] => minimax_decision 5%nat 5 store0 = (store0, Ok None) /\ loses store0 5%nat
         | _ :: _ =>
             exists h' m h'' child,
               minimax_decision 5%nat 5 store0 = (h', Ok (Some m))
               /\ forecast_move 5%nat m store0 = (h'', Ok child)
               /\ (wins store0 5%nat -> loses h'' child)
         end.
Proof.
  split; [reflexivity|]. split; [reflexivity|]. split; [vm_compute; lia|].
  apply (minimax_decision_plays_a_win store0 5%nat initial_state 5);
    [reflexivity|reflexivity|vm_compute; lia].
Defined.

Lemma child_terminal_sim h self s mv :
  Rep h self s -> shape_ok s = true -> mv ∈ legal_moves s ->
  child_terminal h self mv
                 (match legal_moves (apply_move s mv) with [] => true | _ => false end).
Proof.
  intros HR Hsh Hin.
  destruct (forecast_move_child h self s mv HR Hsh Hin) as (h1 & child & Hf & _ & HRc & Hshc).
  exists h1. rewrite (bind_ok _ _ _ _ _ Hf). now apply terminal_test_sim.
Qed.

Lemma min_val_0 s :
  min_val 0 s = match legal_moves s with [] => Int 1 | _ => Int 0 end.
Proof. reflexivity. Qed.

(** X10. With a depth of at most 1 on a well-formed instance that has
    a legal move, [minimax_decision] looks one move ahead: it returns
    the first legal move after which the opponent has no move, and if
    there is no such move, the first legal move. *)
Theorem minimax_decision_one_ply h self depth :
  well_formed h self = true ->
  depth <= 1 ->
  exists moves,
    get_legal_moves self h = (h, Ok moves)
    /\ match moves with
       | [] => minimax_decision self depth h = (h, Ok None)
       | _ :: _ =>
           exists h' pre m post,
             minimax_decision self depth h = (h', Ok (Some m))
             /\ moves = pre ++ m :: post
             /\ (forall x, x ∈ pre -> child_terminal h self x false)
             /\ (child_terminal h self m true
                 \/ (pre = [] /\ child_terminal h self m false
                     /\ forall x, x ∈ post -> child_terminal h self x false))
       end.
Proof.
  intros Hwf Hdepth.
  destruct (well_formed_inv h self Hwf) as (s & Hread & HR & Hsh).
  exists (legal_moves s). split; [now apply get_legal_moves_sim|].
  destruct (legal_moves s) as [|m0 ms] eqn:Hmoves.
  - unfold minimax_decision.
    rewrite (bind_ok _ _ _ _ _ (get_legal_moves_sim _ _ _ HR Hsh)). now rewrite Hmoves.
  - assert (legal_moves s <> []) as Hne by (rewrite Hmoves; discriminate).
    destruct (decision_fold h self s depth HR Hsh Hne)
      as (h' & pre & m & post & Hd & Hsplit & Hpre & Hpost).
    replace (Z.to_nat (depth - 1)) with 0%nat in Hpre, Hpost by lia.
    rewrite Forall_forall in Hpre, Hpost.
    assert (forall x, x ∈ legal_moves s ->
                      int_of (min_val 0 (apply_move s x)) <= 0 ->
                      child_terminal h self x false) as Hzero.
    { intros x Hx Hle. pose proof (child_terminal_sim h self s x HR Hsh Hx) as Hct.
      rewrite min_val_0 in Hle.
      destruct (legal_moves (apply_move s x)); [simpl in Hle; lia|assumption]. }
    assert (forall x, 0 <= int_of (min_val 0 (apply_move s x)) <= 1) as Hrange.
    { intros x. rewrite min_val_0. destruct (legal_moves (apply_move s x)); simpl; lia. }
    assert (m ∈ legal_moves s) as Hm
        by (rewrite Hsplit; apply elem_of_app; right; left).
    rewrite <- Hmoves. exists h', pre, m, post.
    split; [assumption|]. split; [assumption|]. split.
    + intros x Hx. apply Hzero.
      * rewrite Hsplit. apply elem_of_app. now left.
      * specialize (Hpre x Hx). cbv beta in Hpre. specialize (Hrange m). lia.
    + pose proof (child_terminal_sim h self s m HR Hsh Hm) as Hct.
      destruct (legal_moves (apply_move s m)) as [|c0 cs] eqn:Hchild; [now left|].
      right. assert (int_of (min_val 0 (apply_move s m)) = 0) as Hm0
          by (rewrite min_val_0, Hchild; reflexivity).
      split; [|split; [assumption|]].
      * destruct pre as [|x pre]; [reflexivity|].
        specialize (Hpre x ltac:(left)). cbv beta in Hpre. specialize (Hrange x). lia.
      * intros x Hx. apply Hzero.
        -- rewrite Hsplit. apply elem_of_app. right. now right.
        -- specialize (Hpost x Hx). cbv beta in Hpost. lia.
Qed.

Lemma minimax_decision_one_ply_witness :
  well_formed store2 17%nat = true
  /\ 1 <= 1
  /\ exists moves,
      get_legal_moves 17%nat store2 = (store2, Ok moves)
      /\ match moves with
         | [] => minimax_decision 17%nat 1 store2 = (store2, Ok None)
         | _ :: _ =>
             exists h' pre m post,
               minimax_decision 17%nat 1 store2 = (h', Ok (Some m))
               /\ moves = pre ++ m :: post
               /\ (forall x, x ∈ pre -> child_terminal store2 17%nat x false)
               /\ (child_terminal store2 17%nat m true
                   \/ (pre = [] /\ child_terminal store2 17%nat m false
                       /\ forall x, x ∈ post -> child_terminal store2 17%nat x false))
         end.
Proof.
  split; [reflexivity|]. split; [lia|].
  apply (minimax_decision_one_ply store2 17%nat 1); [reflexivity|lia].
Defined.

(** *** Answers depend on the state only *)

(** X11. Two well-formed instances that read as the same state, in
    the same or in different stores, get the same answers: the same
    legal moves, the same terminal test, the same values from
    [min_value] and [max_value] and the same decision. *)
Theorem same_state_same_answers h1 l1 h2 l2 depth :
  well_formed h1 l1 = true ->
  well_formed h2 l2 = true ->
  read_state h1 l1 = read_state h2 l2 ->
  snd (get_legal_moves l1 h1) = snd (get_legal_moves l2 h2)
  /\ snd (terminal_test l1 h1) = snd (terminal_test l2 h2)
  /\ snd (min_value l1 depth h1) = snd (min_value l2 depth h2)
  /\ snd (max_value l1 depth h1) = snd (max_value l2 depth h2)
  /\ snd (minimax_decision l1 depth h1) = snd (minimax_decision l2 depth h2).
Proof.
  intros Hwf1 Hwf2 Hsame.
  destruct (well_formed_inv h1 l1 Hwf1) as (s & Hread1 & HR1 & Hsh).
  destruct (well_formed_inv h2 l2 Hwf2) as (s' & Hread2 & HR2 & _).
  assert (s' = s) as -> by congruence.
  rewrite (get_legal_moves_sim _ _ _ HR1 Hsh), (get_legal_moves_sim _ _ _ HR2 Hsh).
  rewrite (terminal_test_sim _ _ _ HR1 Hsh), (terminal_test_sim _ _ _ HR2 Hsh).
  destruct (min_value_sim h1 l1 s depth HR1 Hsh) as (? & -> & _).
  destruct (min_value_sim h2 l2 s depth HR2 Hsh) as (? & -> & _).
  destruct (max_value_sim h1 l1 s depth HR1 Hsh) as (? & -> & _).
  destruct (max_value_sim h2 l2 s depth HR2 Hsh) as (? & -> & _).
  destruct (minimax_decision_sim h1 l1 s depth HR1 Hsh) as (? & -> & _).
  destruct (minimax_decision_sim h2 l2 s depth HR2 Hsh) as (? & -> & _).
  repeat split.
Qed.

Lemma same_state_same_answers_witness :
  well_formed store0 5%nat = true
  /\ well_formed store2 5%nat = true
  /\ read_state store0 5%nat = read_state store2 5%nat
  /\ snd (get_legal_moves 5%nat store0) = snd (get_legal_moves 5%nat store2)
  /\ snd (terminal_test 5%nat store0) = snd (terminal_test 5%nat store2)
  /\ snd (min_value 5%nat 3 store0) = snd (min_value 5%nat 3 store2)
  /\ snd (max_value 5%nat 3 store0) = snd (max_value 5%nat 3 store2)
  /\ snd (minimax_decision 5%nat 3 store0) = snd (minimax_decision 5%nat 3 store2).
Proof.
  split; [reflexivity|]. split; [reflexivity|]. split; [reflexivity|].
  apply (same_state_same_answers store0 5%nat store2 5%nat 3); reflexivity.
Defined.

(** X12. On a well-formed instance with a legal move and a positive
    depth, the move [minimax_decision] returns attains the value
    [max_value] reports for the instance: [min_value] at [depth - 1]
    on the child forecast for that move returns that same value. *)
Theorem minimax_decision_attains_max_value h self depth :
  well_formed h self = true ->
  0 < depth ->
  exists moves,
    get_legal_moves self h = (h, Ok moves)
    /\ match moves with
       | [] => minimax_decision self depth h = (h, Ok None)
       | _ :: _ =>
           exists h1 m h2 v,
             minimax_decision self depth h = (h1, Ok (Some m))
             /\ m ∈ moves
             /\ max_value self depth h = (h2, Ok (Int v))
             /\ child_value min_value h self m (depth - 1) v
       end.
Proof.
  intros Hwf Hdepth.
  destruct (well_formed_inv h self Hwf) as (s & Hread & HR & Hsh).
  exists (legal_moves s). split; [now apply get_legal_moves_sim|].
  destruct (legal_moves s) as [|m0 ms] eqn:Hmoves.
  - unfold minimax_decision.
    rewrite (bind_ok _ _ _ _ _ (get_legal_moves_sim _ _ _ HR Hsh)). now rewrite Hmoves.
  - assert (legal_moves s <> []) as Hne by (rewrite Hmoves; discriminate).
    destruct (decision_fold h self s depth HR Hsh Hne)
      as (h1 & pre & m & post & Hd & Hsplit & Hpre & Hpost).
    assert (m ∈ legal_moves s) as Hm
        by (rewrite Hsplit; apply elem_of_app; right; left).
    destruct (max_value_sim h self s depth HR Hsh) as (h2 & Hmax & _).
    assert (Z.to_nat depth = S (Z.to_nat (depth - 1))) as Hd1 by lia.
    destruct (max_val_succ_is_max (Z.to_nat (depth - 1)) s Hne) as (v & Hv & Hvin & Hvmax).
    rewrite Hd1, Hv in Hmax.
    rewrite <- Hmoves. exists h1, m, h2, v.
    split; [assumption|]. split; [assumption|]. split; [assumption|].
    assert (v = int_of (min_val (Z.to_nat (depth - 1)) (apply_move s m))) as ->.
    { rewrite Forall_forall in Hvmax. rewrite Forall_forall in Hpre, Hpost.
      assert (int_of (min_val (Z.to_nat (depth - 1)) (apply_move s m)) <= v) as Hle.
      { apply Hvmax. apply list_elem_of_In, in_map_iff. exists m.
        split; [reflexivity|now apply list_elem_of_In]. }
      apply list_elem_of_In, in_map_iff in Hvin as (mx & <- & Hmxin).
      apply list_elem_of_In in Hmxin. rewrite Hsplit in Hmxin.
      apply elem_of_app in Hmxin as [Hin|Hin].
      - specialize (Hpre _ Hin). cbv beta in Hpre. lia.
      - apply elem_of_cons in Hin as [->|Hin]; [reflexivity|].
        specialize (Hpost _ Hin). cbv beta in Hpost. lia. }
    now apply child_value_min.
Qed.

Lemma minimax_decision_attains_max_value_witness :
  well_formed store1 11%nat = true
  /\ 0 < 3
  /\ exists moves,
      get_legal_moves 11%nat store1 = (store1, Ok moves)
      /\ match moves with
         | [] => minimax_decision 11%nat 3 store1 = (store1, Ok None)
         | _ :: _ =>
             exists h1 m h2 v,
               minimax_decision 11%nat 3 store1 = (h1, Ok (Some m))
               /\ m ∈ moves
               /\ max_value 11%nat 3 store1 = (h2, Ok (Int v))
               /\ child_value min_value store1 11%nat m (3 - 1) v
         end.
Proof.
  split; [reflexivity|]. split; [lia|].
  apply (minimax_decision_attains_max_value store1 11%nat 3); [reflexivity|lia].
Defined.

(** X13. Every state of a line of play is, in the final store, an
    instance of the shape all the other results assume: a board of
    [xlim] columns of [ylim] cells held in pairwise distinct column
    objects, two player slots, and player 0 or 1 to move.  The
    constructor establishes this and [forecast_move] keeps it. *)
Theorem reachable_states_well_formed (h0 : heap) ms h states :
  play ms h0 = (h, Ok states) ->
  length states = S (length ms)
  /\ forall l, l ∈ states ->
      well_formed h l = true
      /\ exists st columns,
          read_state h l = Some st
          /\ columns_of h l = Some columns
          /\ NoDup columns
          /\ length (board st) = Z.to_nat xlim
          /\ Forall (fun col => length col = Z.to_nat ylim) (board st)
          /\ length (locations st) = 2%nat
          /\ (active st = 0 \/ active st = 1).
Proof.
  intros Hplay.
  destruct (play_sim h0 ms h states Hplay) as [Hall Hlegal].
  assert (shape_ok initial_state = true) as Hsh0 by reflexivity.
  split.
  - rewrite (Forall2_length _ _ _ Hall). apply line_length.
  - intros l Hl. apply list_elem_of_lookup in Hl as [j Hj].
    destruct (Forall2_lookup_l _ _ _ _ _ Hall Hj) as (st & Hst & HR).
    pose proof (line_state_shape ms _ j st Hsh0 Hst) as Hsh.
    split; [exact (Rep_well_formed _ _ _ HR Hsh)|].
    destruct (Rep_columns_of _ _ _ HR) as (columns & Hcols & Hnd).
    destruct (shape_ok_inv st Hsh) as (H1 & H2 & H3 & H4).
    exists st, columns. split; [now apply Rep_read_state|]. auto 10.
Qed.

Lemma reachable_states_well_formed_witness :
  play [(0, 0); (1, 1)] [] = (store2, Ok [5; 11; 17]%nat)
  /\ length [5; 11; 17]%nat = S (length [(0, 0); (1, 1)])
  /\ forall l, l ∈ [5; 11; 17]%nat ->
      well_formed store2 l = true
      /\ exists st columns,
          read_state store2 l = Some st
          /\ columns_of store2 l = Some columns
          /\ NoDup columns
          /\ length (board st) = Z.to_nat xlim
          /\ Forall (fun col => length col = Z.to_nat ylim) (board st)
          /\ length (locations st) = 2%nat
          /\ (active st = 0 \/ active st = 1).
Proof.
  split; [reflexivity|].
  apply (reachable_states_well_formed [] [(0, 0); (1, 1)] store2 [5; 11; 17]%nat).
  reflexivity.
Defined.
